(** * Specific Affinity: a shallow embedding of the entity-resolution pipeline

    The pipeline of [src/python] is a sequence of SQL statements run against
    one DuckDB connection.  Each statement is embedded as a function on
    tables (lists of rows), and each Python function as a command of a small
    state-and-error monad over the database catalogue (a finite map from
    table names to tables).

    Conventions of the embedding:
    - identifiers, tokens and cluster ids are VARCHAR values ([string]),
      compared with the lexicographic order of their characters;
    - DOUBLE values are exact rationals ([Q]); the SQL function [LN] is a
      parameter of the development: nothing is assumed of it, and the one
      theorem that needs it to be non-decreasing says so;
    - a table is the list of its rows in physical order; [SELECT DISTINCT],
      [GROUP BY] and [UNION] keep one row per value. *)

From Stdlib Require Import QArith Qround Ascii String.
From stdpp Require Import gmap strings list fin_maps pretty.

Open Scope string_scope.

(* ================================================================== *)
(** * Data model *)
(* ================================================================== *)

Definition record_id := string.
Definition token := string.
Definition cluster_id := string.

(** A row of the source table (or of a table of new records): the column
    [config.id_field] and the nullable column [config.text_field].  The
    other columns are carried along by [s.*] and never read. *)
Record source_row := SourceRow {
  row_id : record_id;
  row_text : option string
}.

#[global] Instance source_row_eq_dec : EqDecision source_row.
Proof. solve_decision. Defined.

(* ================================================================== *)
(** * SQL scalar functions on VARCHAR *)
(* ================================================================== *)

Definition is_upper (c : ascii) : bool :=
  let n := nat_of_ascii c in (65 <=? n)%nat && (n <=? 90)%nat.

Definition is_lower (c : ascii) : bool :=
  let n := nat_of_ascii c in (97 <=? n)%nat && (n <=? 122)%nat.

Definition is_digit (c : ascii) : bool :=
  let n := nat_of_ascii c in (48 <=? n)%nat && (n <=? 57)%nat.

(** The class [\s] of the regular-expression engine: tab, line feed, form
    feed, carriage return and space. *)
Definition is_space (c : ascii) : bool :=
  let n := nat_of_ascii c in
  (n =? 9)%nat || (n =? 10)%nat || (n =? 12)%nat || (n =? 13)%nat || (n =? 32)%nat.

Definition lower_char (c : ascii) : ascii :=
  if is_upper c then ascii_of_nat (nat_of_ascii c + 32) else c.

(** [LOWER(s)] *)
Fixpoint LOWER (s : string) : string :=
  match s with
  | EmptyString => EmptyString
  | String c s' => String (lower_char c) (LOWER s')
  end.

(** The character class [[^a-zA-Z0-9\s]]. *)
Definition not_alnum_space (c : ascii) : bool :=
  negb (is_lower c || is_upper c || is_digit c || is_space c).

(** [regexp_replace(s, '[^a-zA-Z0-9\s]', ' ', 'g')] *)
Fixpoint regexp_replace_non_alnum (s : string) : string :=
  match s with
  | EmptyString => EmptyString
  | String c s' =>
      String (if not_alnum_space c then " "%char else c)
             (regexp_replace_non_alnum s')
  end.

(** [string_split(s, sep)] for a one-character separator: every occurrence
    of the separator ends a piece, so consecutive separators give empty
    pieces and the empty string gives one empty piece. *)
Fixpoint string_split (sep : ascii) (s : string) : list string :=
  match s with
  | EmptyString => [EmptyString]
  | String c s' =>
      if Ascii.eqb c sep then EmptyString :: string_split sep s'
      else match string_split sep s' with
           | [] => [String c EmptyString]
           | t :: ts => String c t :: ts
           end
  end.

Fixpoint ltrim (s : string) : string :=
  match s with
  | String c s' => if Ascii.eqb c " "%char then ltrim s' else s
  | EmptyString => EmptyString
  end.

Fixpoint rtrim (s : string) : string :=
  match s with
  | EmptyString => EmptyString
  | String c s' =>
      match rtrim s' with
      | EmptyString => if Ascii.eqb c " "%char then EmptyString else String c EmptyString
      | r => String c r
      end
  end.

(** [TRIM(s)]: removes the spaces at both ends. *)
Definition TRIM (s : string) : string := rtrim (ltrim s).

(** [LENGTH(s)] *)
Definition LENGTH (s : string) : Z := Z.of_nat (String.length s).

(** [LEAST(a, b)] on VARCHAR. *)
Definition LEAST (a b : string) : string :=
  if String.ltb b a then b else a.

(** [MIN] of a non-empty group of VARCHAR values. *)
Definition MIN_str (x : string) (xs : list string) : string :=
  foldr LEAST x xs.

(* ================================================================== *)
(** * SQL relational operators on lists of rows *)
(* ================================================================== *)

(** [SUM] and [AVG] over DOUBLE values; [AVG] of no row is NULL. *)
Definition SUM (l : list Q) : Q := foldr Qplus 0%Q l.

Definition AVG (l : list Q) : option Q :=
  match l with
  | [] => None
  | _ => Some (SUM l / inject_Z (Z.of_nat (length l)))%Q
  end.

(** [COUNT( * )] *)
Definition COUNT {A} (l : list A) : Z := Z.of_nat (length l).

(** [MIN] and [MAX] over DOUBLE values of a non-empty set of rows. *)
Definition Qmin2 (a b : Q) : Q := if Qle_bool a b then a else b.
Definition Qmax2 (a b : Q) : Q := if Qle_bool a b then b else a.

Definition MIN_dbl (l : list Q) : option Q :=
  match l with
  | [] => None
  | x :: xs => Some (foldr Qmin2 x xs)
  end.

Definition MAX_dbl (l : list Q) : option Q :=
  match l with
  | [] => None
  | x :: xs => Some (foldr Qmax2 x xs)
  end.

(** [NULLIF(x, 0)] on DOUBLE. *)
Definition NULLIF0 (x : Q) : option Q :=
  if Qeq_bool x 0 then None else Some x.

(** [ROUND(x, d)] on DOUBLE: to [d] decimal places, halves away from zero. *)
Definition ROUND (x : Q) (d : nat) : Q :=
  let p := (10 ^ Z.of_nat d)%Z in
  let scaled := (x * inject_Z p)%Q in
  let n := if Qle_bool 0 x then Qfloor (scaled + (1 # 2))
           else (- Qfloor (- scaled + (1 # 2)))%Z in
  Qmake n (Z.to_pos p).

(** Python's [round(x, d)] on a float: halves go to the even neighbour. *)
Definition py_round (x : Q) (d : nat) : Q :=
  let p := (10 ^ Z.of_nat d)%Z in
  let scaled := (x * inject_Z p + (1 # 2))%Q in
  let n := Qfloor scaled in
  Qmake (if Qeq_bool scaled (inject_Z n) && Z.odd n then n - 1 else n)
        (Z.to_pos p).

(** [GROUP BY key] with [SUM(value)]: one row per distinct key. *)
Definition group_sum {K} `{EqDecision K} (rows : list (K * Q)) : list (K * Q) :=
  fmap (λ k, (k, SUM (filter (λ kv, kv.1 = k) rows).*2)) (remove_dups rows.*1).

(** [ORDER BY]: a stable insertion sort; rows that the sort key does not
    separate keep their physical order. *)
Fixpoint insert_by {A} (le : A → A → bool) (x : A) (l : list A) : list A :=
  match l with
  | [] => [x]
  | y :: l' => if le x y then x :: l else y :: insert_by le x l'
  end.

Definition order_by {A} (le : A → A → bool) (l : list A) : list A :=
  foldr (insert_by le) [] l.

(** [ROW_NUMBER()] over rows already in window order: 1, 2, 3, ... *)
Definition row_numbers {A} (l : list A) : list (A * Z) :=
  imap (λ i x, (x, Z.of_nat (S i))) l.

(** [a LEFT JOIN b ON p a b], keeping with each row of [a] the matching
    row of [b] or NULL. *)
Definition left_join {A B} (p : A → B → bool) (a : list A) (b : list B)
  : list (A * option B) :=
  a ≫= (λ x, match filter (λ y, p x y = true) b with
             | [] => [(x, None)]
             | ys => fmap (λ y, (x, Some y)) ys
             end).

(* ================================================================== *)
(** * Configuration ([config.py]) *)
(* ================================================================== *)

Definition DEFAULT_STOP_WORDS : gset string :=
  list_to_set
    ["a"; "an"; "and"; "are"; "as"; "at"; "be"; "by"; "for"; "from";
     "has"; "he"; "in"; "is"; "it"; "its"; "of"; "on"; "or"; "that";
     "the"; "to"; "was"; "were"; "will"; "with"; "this"; "but"; "they";
     "have"; "had"; "what"; "when"; "where"; "who"; "which"; "why"; "how";
     "all"; "each"; "every"; "both"; "few"; "more"; "most"; "other";
     "some"; "such"; "no"; "nor"; "not"; "only"; "own"; "same"; "so";
     "than"; "too"; "very"; "just"; "can"; "should"; "now"; "inc"; "llc";
     "corp"; "ltd"; "co"; "www"; "com"; "net"; "org"].

(** The dataclass [Config].  The fields used only by the categorization
    step (amount, date and group fields and their thresholds) are left
    out; the names [text_field] and [id_field] select the two columns of
    [source_row]. *)
Record Config := mkConfig {
  db_path : string;
  text_field : string;
  id_field : string;
  source_table : string;
  similarity_threshold : Q;
  stop_words : gset string;
  min_token_length : Z;
  prime_table : string;
  blocking_keys_table : string;
  weights_table : string;
  clusters_table : string;
  inferred_matches_table : string;
  unassigned_table : string
}.

(** [str.replace(".", "_")] *)
Fixpoint replace_dot (s : string) : string :=
  match s with
  | EmptyString => EmptyString
  | String c s' =>
      String (if Ascii.eqb c "."%char then "_"%char else c) (replace_dot s')
  end.

(** [if not self.x: self.x = f"{prefix}_suffix"] *)
Definition default_name (given prefix suffix : string) : string :=
  if String.eqb given EmptyString then prefix +:+ suffix else given.

(** [Config.__post_init__]: it fills in the table names that were left
    empty and does nothing else. *)
Definition post_init (c : Config) : Config :=
  let prefix := replace_dot (source_table c) in
  {| db_path := db_path c;
     text_field := text_field c;
     id_field := id_field c;
     source_table := source_table c;
     similarity_threshold := similarity_threshold c;
     stop_words := stop_words c;
     min_token_length := min_token_length c;
     prime_table := default_name (prime_table c) prefix "_prime";
     blocking_keys_table :=
       default_name (blocking_keys_table c) prefix "_blocking_keys";
     weights_table := default_name (weights_table c) prefix "_weights";
     clusters_table := default_name (clusters_table c) prefix "_clusters";
     inferred_matches_table :=
       default_name (inferred_matches_table c) prefix "_inferred_matches";
     unassigned_table :=
       default_name (unassigned_table c) prefix "_unassigned" |}.

(** The constructor call [Config(db_path=..., text_field=..., id_field=...,
    source_table=..., similarity_threshold=..., min_token_length=...)] of
    [SpecificAffinity.__init__]: default stop words, empty table names,
    then [__post_init__]. *)
Definition new_Config (db text id source : string) (threshold : Q)
    (min_len : Z) : Config :=
  post_init
    {| db_path := db; text_field := text; id_field := id;
       source_table := source; similarity_threshold := threshold;
       stop_words := DEFAULT_STOP_WORDS; min_token_length := min_len;
       prime_table := EmptyString; blocking_keys_table := EmptyString;
       weights_table := EmptyString; clusters_table := EmptyString;
       inferred_matches_table := EmptyString;
       unassigned_table := EmptyString |}.

(** [Config.add_stop_words] *)
Definition add_stop_words (words : gset string) (c : Config) : Config :=
  {| db_path := db_path c; text_field := text_field c;
     id_field := id_field c; source_table := source_table c;
     similarity_threshold := similarity_threshold c;
     stop_words := stop_words c ∪ words;
     min_token_length := min_token_length c;
     prime_table := prime_table c;
     blocking_keys_table := blocking_keys_table c;
     weights_table := weights_table c;
     clusters_table := clusters_table c;
     inferred_matches_table := inferred_matches_table c;
     unassigned_table := unassigned_table c |}.

(** [SpecificAffinity.__init__] *)
Definition SpecificAffinity_init (db text id source : string)
    (threshold : Q) (stop : option (gset string)) (min_len : Z) : Config :=
  let c := new_Config db text id source threshold min_len in
  match stop with
  | Some words => if bool_decide (words = ∅) then c else add_stop_words words c
  | None => c
  end.

(* ================================================================== *)
(** * Tables and the database catalogue *)
(* ================================================================== *)

(** A candidate of inference: one row of [inference_candidates]. *)
Record candidate := Candidate {
  query_id : record_id;
  prime_record_id : record_id;
  prime_cluster_id : cluster_id;
  cand_score : Q
}.

Inductive match_status := matched | unmatched.

#[global] Instance match_status_eq_dec : EqDecision match_status.
Proof. solve_decision. Defined.

(** A row of [inference_results]: the new record, then the three columns
    of the left join and the status. *)
Record result_row := ResultRow {
  res_record : source_row;
  assigned_cluster_id : option cluster_id;
  matched_record_id : option record_id;
  res_score : option Q;
  res_status : match_status
}.

(** The tables of the pipeline, by their columns. *)
Inductive table :=
  | StopWordsT (words : list string)
  | RecordsT (rows : list source_row)
  | NormalizedT (rows : list (record_id * string * string))
  | KeysT (rows : list (record_id * token))
  | WeightsT (rows : list (token * Q))
  | PairsT (rows : list (record_id * record_id * Q))
  | ClustersT (rows : list (record_id * cluster_id))
  | PrimeT (rows : list (source_row * option cluster_id))
  | CandidatesT (rows : list candidate)
  | RankedT (rows : list (candidate * Z))
  | ResultsT (rows : list result_row).

Inductive exn :=
  | CatalogError (name : string)   (* the table does not exist *)
  | BinderError (name : string)    (* the table lacks a referenced column *)
  | Unfinished (name : string).    (* the recursive query ran out of rounds *)

Inductive outcome (A : Type) :=
  | Return (a : A)
  | Raise (e : exn).
Arguments Return {A} a.
Arguments Raise {A} e.

(** A command runs against the connection: it yields a value or raises,
    and leaves a catalogue behind in both cases. *)
Definition M (A : Type) : Type := gmap string table → outcome A * gmap string table.

Definition ret {A} (a : A) : M A := λ db, (Return a, db).

Definition bind {A B} (c : M A) (k : A → M B) : M B :=
  λ db, match c db with
        | (Return a, db') => k a db'
        | (Raise e, db') => (Raise e, db')
        end.

Definition raise {A} (e : exn) : M A := λ db, (Raise e, db).

Notation "'let*' x ':=' c 'in' k" := (bind c (λ x, k))
  (at level 10, x pattern, c at level 100, k at level 200).
Notation "c1 ;; c2" := (bind c1 (λ _, c2))
  (at level 100, c2 at level 200, right associativity).

(** [CREATE OR REPLACE TABLE name AS ...] *)
Definition create_or_replace (name : string) (t : table) : M unit :=
  λ db, (Return tt, <[name := t]> db).

(** Reading a table by name. *)
Definition read_table (name : string) : M table :=
  λ db, match db !! name with
        | Some t => (Return t, db)
        | None => (Raise (CatalogError name), db)
        end.

(** Reading a table at given columns: the projections below say which
    tables carry them. *)
Definition read_as {A} (proj : table → option A) (name : string) : M A :=
  let* t := read_table name in
  match proj t with
  | Some a => ret a
  | None => raise (BinderError name)
  end.

(** Columns [id_field], [text_field]. *)
Definition as_records (t : table) : option (list source_row) :=
  match t with
  | RecordsT rows => Some rows
  | PrimeT rows => Some rows.*1
  | ResultsT rows => Some (fmap res_record rows)
  | _ => None
  end.

Definition as_stop_words (t : table) : option (list string) :=
  match t with StopWordsT w => Some w | _ => None end.

Definition as_normalized (t : table) : option (list (record_id * string * string)) :=
  match t with NormalizedT r => Some r | _ => None end.

(** Columns [record_id], [token]. *)
Definition as_keys (t : table) : option (list (record_id * token)) :=
  match t with KeysT r => Some r | _ => None end.

(** Columns [token], [weight]. *)
Definition as_weights (t : table) : option (list (token * Q)) :=
  match t with WeightsT r => Some r | _ => None end.

(** Columns [record_id_1], [record_id_2], [similarity_score]. *)
Definition as_pairs (t : table) : option (list (record_id * record_id * Q)) :=
  match t with PairsT r => Some r | _ => None end.

(** Columns [record_id], [cluster_id]. *)
Definition as_clusters (t : table) : option (list (record_id * cluster_id)) :=
  match t with ClustersT r => Some r | _ => None end.

(** Columns [id_field], [cluster_id]. *)
Definition as_prime (t : table) : option (list (source_row * option cluster_id)) :=
  match t with PrimeT r => Some r | _ => None end.

Definition as_candidates (t : table) : option (list candidate) :=
  match t with CandidatesT r => Some r | _ => None end.

Definition as_ranked (t : table) : option (list (candidate * Z)) :=
  match t with RankedT r => Some r | _ => None end.

Definition as_results (t : table) : option (list result_row) :=
  match t with ResultsT r => Some r | _ => None end.

(* ================================================================== *)
(** * Step 1: create the prime table ([prime_table.py]) *)
(* ================================================================== *)

(** [DELETE FROM t]: the table keeps its columns and loses its rows. *)
Definition truncate (t : table) : table :=
  match t with
  | StopWordsT _ => StopWordsT []
  | RecordsT _ => RecordsT []
  | NormalizedT _ => NormalizedT []
  | KeysT _ => KeysT []
  | WeightsT _ => WeightsT []
  | PairsT _ => PairsT []
  | ClustersT _ => ClustersT []
  | PrimeT _ => PrimeT []
  | CandidatesT _ => CandidatesT []
  | RankedT _ => RankedT []
  | ResultsT _ => ResultsT []
  end.

(** [SELECT COUNT( * ) FROM t] *)
Definition row_count (t : table) : Z :=
  match t with
  | StopWordsT r => COUNT r
  | RecordsT r => COUNT r
  | NormalizedT r => COUNT r
  | KeysT r => COUNT r
  | WeightsT r => COUNT r
  | PairsT r => COUNT r
  | ClustersT r => COUNT r
  | PrimeT r => COUNT r
  | CandidatesT r => COUNT r
  | RankedT r => COUNT r
  | ResultsT r => COUNT r
  end.

(** [create_stop_words_table]: [CREATE TABLE IF NOT EXISTS], [DELETE],
    then one [INSERT OR IGNORE] per configured word. *)
Definition create_stop_words_table (config : Config) : M unit :=
  λ db,
    let words := elements (stop_words config) in
    match db !! "stop_words" with
    | None | Some (StopWordsT _) =>
        (Return tt, <["stop_words" := StopWordsT words]> db)
    | Some t =>
        let db' := <["stop_words" := truncate t]> db in
        match words with
        | [] => (Return tt, db')
        | _ => (Raise (BinderError "stop_words"), db')
        end
    end.

(** The rows of the view [normalized_text]: records whose text is not
    NULL and not blank, with the lower-cased text in which every character
    outside letters, digits and [\s] is a space. *)
Definition normalized_text_query (src : list source_row)
  : list (record_id * string * string) :=
  omap (λ r, match row_text r with
             | Some t =>
                 if (0 <? LENGTH (TRIM t))%Z
                 then Some (row_id r, t, regexp_replace_non_alnum (LOWER t))
                 else None
             | None => None
             end) src.

Definition create_normalized_text_view (config : Config) : M unit :=
  let* src := read_as as_records (source_table config) in
  create_or_replace "normalized_text" (NormalizedT (normalized_text_query src)).

(** The CTE [tokenized]: [unnest(string_split(normalized_text, ' '))]. *)
Definition tokenized (norm : list (record_id * string))
  : list (record_id * token) :=
  norm ≫= (λ rn, fmap (λ t, (rn.1, t)) (string_split " " rn.2)).

(** [SELECT DISTINCT record_id, token FROM tokenized WHERE token IS NOT
    NULL AND LENGTH(token) >= min_token_length AND token NOT IN (SELECT
    word FROM stop_words)]. *)
Definition blocking_keys_query (min_len : Z) (stop : list string)
    (norm : list (record_id * string)) : list (record_id * token) :=
  remove_dups
    (filter (λ rt, (min_len ≤ LENGTH rt.2)%Z ∧ rt.2 ∉ stop) (tokenized norm)).

Definition create_blocking_keys (config : Config) : M Z :=
  let* norm := read_as as_normalized "normalized_text" in
  let* stop := read_as as_stop_words "stop_words" in
  let keys := blocking_keys_query (min_token_length config) stop
                (fmap (λ r, (r.1.1, r.2)) norm) in
  create_or_replace (blocking_keys_table config) (KeysT keys) ;;
  ret (COUNT keys).

Section Weights.
(** The SQL function [LN] on DOUBLE. *)
Variable LN : Q → Q.

(** The CTE [token_counts]: token, freq, total_records. *)
Definition token_counts (bk : list (record_id * token))
  : list (token * Z * Z) :=
  let total := COUNT (remove_dups bk.*1) in
  fmap (λ t, (t, COUNT (filter (λ rt, rt.2 = t) bk), total))
      (remove_dups bk.*2).

(** [freq::DOUBLE / total_records] *)
Definition raw_frequency (c : token * Z * Z) : Q :=
  (inject_Z c.1.2 / inject_Z c.2)%Q.

(** The CTE [weight_calc]: token and the nullable ratio
    [AVG(raw frequency) / NULLIF(raw frequency, 0)]. *)
Definition weight_calc (tc : list (token * Z * Z))
  : list (token * option Q) :=
  let avg := AVG (fmap raw_frequency tc) in
  fmap (λ c, (c.1.1,
             match avg, NULLIF0 (raw_frequency c) with
             | Some a, Some r => Some (a / r)%Q
             | _, _ => None
             end)) tc.

(** The CTE [log_weights]: [WHERE token != '' AND weight > 0]. *)
Definition log_weights (wc : list (token * option Q)) : list (token * Q) :=
  omap (λ tw, match tw.2 with
              | Some w =>
                  if bool_decide (tw.1 ≠ EmptyString) && negb (Qle_bool w 0)
                  then Some (tw.1, LN w) else None
              | None => None
              end) wc.

(** The CTE [normalized]: min-max normalisation over the whole table,
    NULL when the maximum equals the minimum. *)
Definition normalized (lw : list (token * Q)) : list (token * option Q) :=
  match MIN_dbl lw.*2, MAX_dbl lw.*2 with
  | Some lo, Some hi =>
      fmap (λ tw, (tw.1,
                  match NULLIF0 (hi - lo) with
                  | Some d => Some ((tw.2 - lo) / d)%Q
                  | None => None
                  end)) lw
  | _, _ => []
  end.

(** [SELECT token, ROUND(COALESCE(normalized_weight, 0), 4) AS weight
    FROM normalized WHERE normalized_weight IS NOT NULL]. *)
Definition weights_select (nz : list (token * option Q)) : list (token * Q) :=
  fmap (λ tw, (tw.1, ROUND (default 0%Q tw.2) 4))
      (filter (λ tw, tw.2 ≠ None) nz).

Definition weights_query (bk : list (record_id * token)) : list (token * Q) :=
  weights_select (normalized (log_weights (weight_calc (token_counts bk)))).

Definition calculate_weights (config : Config) : M Z :=
  let* bk := read_as as_keys (blocking_keys_table config) in
  let weights := weights_query bk in
  create_or_replace (weights_table config) (WeightsT weights) ;;
  ret (COUNT weights).
End Weights.

(** The self-join of [find_candidate_pairs] before grouping: one row per
    (row of bk1, row of bk2, row of the weights) with equal tokens and
    [bk1.record_id < bk2.record_id]. *)
Definition pairs_join (bk : list (record_id * token)) (tw : list (token * Q))
  : list (record_id * record_id * Q) :=
  bk ≫= (λ k1, bk ≫= (λ k2, tw ≫= (λ w,
    if bool_decide (k1.2 = k2.2) && bool_decide (k1.2 = w.1)
       && String.ltb k1.1 k2.1
    then [(k1.1, k2.1, w.2)] else []))).

(** [... GROUP BY bk1.record_id, bk2.record_id] with [SUM(tw.weight)]. *)
Definition candidate_pairs_query (bk : list (record_id * token))
    (tw : list (token * Q)) : list (record_id * record_id * Q) :=
  group_sum (pairs_join bk tw).

Definition find_candidate_pairs (config : Config) : M Z :=
  let* bk := read_as as_keys (blocking_keys_table config) in
  let* tw := read_as as_weights (weights_table config) in
  let pairs := candidate_pairs_query bk tw in
  create_or_replace "candidate_pairs" (PairsT pairs) ;;
  ret (COUNT pairs).

(** [WHERE similarity_score >= threshold] *)
Definition filter_pairs_query (threshold : Q)
    (pairs : list (record_id * record_id * Q))
  : list (record_id * record_id * Q) :=
  filter (λ p, Qle_bool threshold p.2 = true) pairs.

Definition filter_by_threshold (config : Config) : M Z :=
  let* pairs := read_as as_pairs "candidate_pairs" in
  let kept := filter_pairs_query (similarity_threshold config) pairs in
  create_or_replace "filtered_pairs" (PairsT kept) ;;
  ret (COUNT kept).

(** ** The recursive CTE [connected_components] *)

(** The two non-recursive branches: every end of a pair, labelled with
    itself. *)
Definition cc_anchor (fp : list (record_id * record_id * Q))
  : list (record_id * cluster_id) :=
  remove_dups (fmap (λ p, (p.1.1, p.1.1)) fp ++ fmap (λ p, (p.1.2, p.1.2)) fp).

(** The two recursive branches, run on the rows [cc] of the previous
    round:
    [SELECT fp.record_id_2, LEAST(cc.cluster_id, fp.record_id_2)
       FROM cc JOIN fp ON cc.node = fp.record_id_1
      WHERE cc.cluster_id <> LEAST(cc.cluster_id, fp.record_id_2)]
    and the same with the two ends exchanged. *)
Definition cc_step (fp : list (record_id * record_id * Q))
    (cc : list (record_id * cluster_id)) : list (record_id * cluster_id) :=
  (cc ≫= (λ c, fp ≫= (λ p,
     if bool_decide (c.1 = p.1.1) && bool_decide (c.2 ≠ LEAST c.2 p.1.2)
     then [(p.1.2, LEAST c.2 p.1.2)] else [])))
  ++
  (cc ≫= (λ c, fp ≫= (λ p,
     if bool_decide (c.1 = p.1.2) && bool_decide (c.2 ≠ LEAST c.2 p.1.1)
     then [(p.1.1, LEAST c.2 p.1.1)] else []))).

(** Evaluation of [WITH RECURSIVE ... UNION ...]: each round runs the
    recursive branches on the rows the previous round added, keeps the
    rows not yet in the result, and stops when a round adds none.  [None]
    when the rounds are not over after [fuel] of them. *)
Fixpoint cc_iterate (fuel : nat) (fp : list (record_id * record_id * Q))
    (result working : list (record_id * cluster_id))
  : option (list (record_id * cluster_id)) :=
  match fuel with
  | O => None
  | S fuel' =>
      match filter (λ r, r ∉ result) (remove_dups (cc_step fp working)) with
      | [] => Some result
      | new => cc_iterate fuel' fp (result ++ new) new
      end
  end.

(** [MIN] over a group of VARCHAR values. *)
Definition MIN_varchar (l : list string) : option string :=
  match l with
  | [] => None
  | x :: xs => Some (foldr LEAST x xs)
  end.

(** [ORDER BY cluster_id, record_id] *)
Definition cluster_row_le (a b : record_id * cluster_id) : bool :=
  String.ltb a.2 b.2 || (String.eqb a.2 b.2 && String.leb a.1 b.1).

(** [SELECT node AS record_id, MIN(cluster_id) AS cluster_id FROM
    connected_components GROUP BY node ORDER BY cluster_id, record_id] *)
Definition cc_select (cc : list (record_id * cluster_id))
  : list (record_id * cluster_id) :=
  order_by cluster_row_le
    (omap (λ n, (λ m, (n, m)) <$> MIN_varchar (filter (λ r, r.1 = n) cc).*2)
          (remove_dups cc.*1)).

(** A label is an end of a pair, so a round can add at most (number of
    ends) squared rows. *)
Definition cc_fuel (fp : list (record_id * record_id * Q)) : nat :=
  S (length (cc_anchor fp) * length (cc_anchor fp)).

Definition connected_components_query (fp : list (record_id * record_id * Q))
  : option (list (record_id * cluster_id)) :=
  cc_select <$> cc_iterate (cc_fuel fp) fp (cc_anchor fp) (cc_anchor fp).

(** [COUNT(DISTINCT cluster_id)] on a clusters table. *)
Definition count_distinct_clusters (rows : list (record_id * cluster_id)) : Z :=
  COUNT (remove_dups rows.*2).

(** Running a recursive query inside a command. *)
Definition run_recursive (name : string)
    (q : option (list (record_id * cluster_id)))
  : M (list (record_id * cluster_id)) :=
  match q with
  | Some rows => ret rows
  | None => raise (Unfinished name)
  end.

Definition identify_connected_components (config : Config) : M Z :=
  let* fp := read_as as_pairs "filtered_pairs" in
  let* rows := run_recursive (clusters_table config)
                 (connected_components_query fp) in
  create_or_replace (clusters_table config) (ClustersT rows) ;;
  ret (count_distinct_clusters rows).

(** [SELECT s.*, rc.cluster_id FROM source s LEFT JOIN clusters rc ON
    s.id = rc.record_id] *)
Definition prime_table_query (src : list source_row)
    (clusters : list (record_id * cluster_id))
  : list (source_row * option cluster_id) :=
  fmap (λ sc : source_row * option (record_id * cluster_id),
          (sc.1, snd <$> sc.2))
      (left_join (λ s rc, String.eqb (row_id s) rc.1) src clusters).

Definition create_prime_table (config : Config) : M unit :=
  let* src := read_as as_records (source_table config) in
  let* clusters := read_as as_clusters (clusters_table config) in
  create_or_replace (prime_table config)
    (PrimeT (prime_table_query src clusters)).

(** The dictionary returned by [get_summary_stats]. *)
Record summary_stats := SummaryStats {
  total_clusters : Z;
  total_records : Z;
  clustered_records : Z;
  unclustered_records : Z;
  avg_cluster_size : option Q
}.

(** The cluster ids of a prime table that are not NULL. *)
Definition cluster_ids (prime : list (source_row * option cluster_id))
  : list cluster_id :=
  omap snd prime.

(** [SELECT cluster_id, COUNT( * ) AS cluster_size FROM prime WHERE
    cluster_id IS NOT NULL GROUP BY cluster_id] *)
Definition cluster_sizes (prime : list (source_row * option cluster_id))
  : list Z :=
  fmap (λ c, COUNT (filter (λ c', c' = c) (cluster_ids prime)))
      (remove_dups (cluster_ids prime)).

Definition summary_stats_query (prime : list (source_row * option cluster_id))
  : summary_stats :=
  {| total_clusters := COUNT (remove_dups (cluster_ids prime));
     total_records := COUNT prime;
     clustered_records := COUNT (filter (λ r, r.2 ≠ None) prime);
     unclustered_records := COUNT (filter (λ r, r.2 = None) prime);
     avg_cluster_size :=
       (λ a, ROUND a 2) <$> AVG (fmap inject_Z (cluster_sizes prime)) |}.

Definition get_summary_stats (config : Config) : M summary_stats :=
  let* prime := read_as as_prime (prime_table config) in
  ret (summary_stats_query prime).

Section Pipeline.
Variable LN : Q → Q.

(** [run_step_1]: the eight statements in order, then the summary. *)
Definition run_step_1 (config : Config) : M summary_stats :=
  create_stop_words_table config ;;
  create_normalized_text_view config ;;
  create_blocking_keys config ;;
  calculate_weights LN config ;;
  find_candidate_pairs config ;;
  filter_by_threshold config ;;
  identify_connected_components config ;;
  create_prime_table config ;;
  get_summary_stats config.
End Pipeline.

(* ================================================================== *)
(** * Step 2: inference ([inference.py]) *)
(* ================================================================== *)

(** [tokenize_new_records]: the same normalisation and tokenisation, on
    the table of new records.  It returns [COUNT(DISTINCT record_id)]. *)
Definition new_record_tokens_query (min_len : Z) (stop : list string)
    (new_records : list source_row) : list (record_id * token) :=
  blocking_keys_query min_len stop
    (fmap (λ r, (r.1.1, r.2)) (normalized_text_query new_records)).

Definition tokenize_new_records (config : Config) (new_records_table : string)
  : M Z :=
  let* nr := read_as as_records new_records_table in
  let* stop := read_as as_stop_words "stop_words" in
  let toks := new_record_tokens_query (min_token_length config) stop nr in
  create_or_replace "new_record_tokens" (KeysT toks) ;;
  ret (COUNT (remove_dups toks.*1)).

(** The join of [find_candidates] before grouping: new token, blocking
    key, weight and prime row with equal tokens and equal record ids,
    [WHERE pt.cluster_id IS NOT NULL]. *)
Definition candidates_join (nrt bk : list (record_id * token))
    (tw : list (token * Q)) (pt : list (source_row * option cluster_id))
  : list (record_id * record_id * cluster_id * Q) :=
  nrt ≫= (λ n, bk ≫= (λ k, tw ≫= (λ w, pt ≫= (λ p,
    match p.2 with
    | Some c =>
        if bool_decide (n.2 = k.2) && bool_decide (n.2 = w.1)
           && bool_decide (k.1 = row_id p.1)
        then [(n.1, k.1, c, w.2)] else []
    | None => []
    end)))).

(** [GROUP BY nrt.record_id, bk.record_id, pt.cluster_id] *)
Definition candidates_query (nrt bk : list (record_id * token))
    (tw : list (token * Q)) (pt : list (source_row * option cluster_id))
  : list candidate :=
  fmap (λ g, Candidate g.1.1.1 g.1.1.2 g.1.2 g.2)
      (group_sum (candidates_join nrt bk tw pt)).

Definition find_candidates (config : Config) : M Z :=
  let* nrt := read_as as_keys "new_record_tokens" in
  let* bk := read_as as_keys (blocking_keys_table config) in
  let* tw := read_as as_weights (weights_table config) in
  let* pt := read_as as_prime (prime_table config) in
  let cands := candidates_query nrt bk tw pt in
  create_or_replace "inference_candidates" (CandidatesT cands) ;;
  ret (COUNT cands).

(** [ORDER BY similarity_score DESC] *)
Definition score_desc (a b : candidate) : bool :=
  Qle_bool (cand_score b) (cand_score a).

(** [ROW_NUMBER() OVER (PARTITION BY query_id ORDER BY similarity_score
    DESC)]: each partition is sorted by score alone and numbered. *)
Definition ranked_query (cands : list candidate) : list (candidate * Z) :=
  remove_dups (fmap query_id cands) ≫= (λ q,
    row_numbers (order_by score_desc (filter (λ c, query_id c = q) cands))).

Definition rank_matches (config : Config) : M unit :=
  let* cands := read_as as_candidates "inference_candidates" in
  create_or_replace "ranked_matches" (RankedT (ranked_query cands)).

(** [WHERE match_rank = 1 AND similarity_score >= threshold] *)
Definition inferred_matches_query (threshold : Q)
    (ranked : list (candidate * Z)) : list (candidate * Z) :=
  filter (λ r, r.2 = 1%Z ∧ Qle_bool threshold (cand_score r.1) = true) ranked.

Definition create_inferred_matches (config : Config) : M Z :=
  let* ranked := read_as as_ranked "ranked_matches" in
  let ms := inferred_matches_query (similarity_threshold config) ranked in
  create_or_replace (inferred_matches_table config) (RankedT ms) ;;
  ret (COUNT ms).

(** [SELECT nr.*, im.assigned_cluster_id, im.matched_record_id,
    im.similarity_score, CASE WHEN im.assigned_cluster_id IS NOT NULL
    THEN 'matched' ELSE 'unmatched' END FROM new_records nr LEFT JOIN
    inferred_matches im ON nr.id = im.query_id] *)
Definition inference_results_query (new_records : list source_row)
    (ms : list (candidate * Z)) : list result_row :=
  fmap (λ j, match j.2 with
            | Some m =>
                ResultRow j.1 (Some (prime_cluster_id m.1))
                  (Some (prime_record_id m.1)) (Some (cand_score m.1)) matched
            | None => ResultRow j.1 None None None unmatched
            end)
      (left_join (λ nr m, String.eqb (row_id nr) (query_id m.1)) new_records ms).

Definition create_inference_results (config : Config)
    (new_records_table : string) : M unit :=
  let* nr := read_as as_records new_records_table in
  let* ms := read_as as_ranked (inferred_matches_table config) in
  create_or_replace "inference_results"
    (ResultsT (inference_results_query nr ms)).

(** The dictionary returned by [get_inference_stats]. *)
Record inference_stats := InferenceStats {
  inf_total_records : Z;
  inf_matched : Z;
  inf_unmatched : Z;
  match_rate_pct : Q;
  avg_similarity : option Q
}.

Definition inference_stats_query (res : list result_row) : inference_stats :=
  let total := COUNT res in
  let m := filter (λ r, res_status r = matched) res in
  {| inf_total_records := total;
     inf_matched := COUNT m;
     inf_unmatched := COUNT (filter (λ r, res_status r = unmatched) res);
     match_rate_pct :=
       py_round (if (0 <? total)%Z
              then (inject_Z (COUNT m) * 100 / inject_Z total)%Q else 0%Q) 2;
     avg_similarity :=
       (λ a, ROUND a 4) <$> AVG (omap res_score m) |}.

Definition get_inference_stats : M inference_stats :=
  let* res := read_as as_results "inference_results" in
  ret (inference_stats_query res).

(** [run_step_2] *)
Definition run_step_2 (config : Config) (new_records_table : string)
  : M inference_stats :=
  tokenize_new_records config new_records_table ;;
  find_candidates config ;;
  rank_matches config ;;
  create_inferred_matches config ;;
  create_inference_results config new_records_table ;;
  get_inference_stats.

(* ================================================================== *)
(** * Step 3: cleanup of the unassigned records ([cleanup.py]) *)
(* ================================================================== *)

(** [SELECT * FROM inference_results WHERE match_status = 'unmatched'] *)
Definition unassigned_query (res : list result_row) : list result_row :=
  filter (λ r, res_status r = unmatched) res.

Definition identify_unassigned (config : Config) : M Z :=
  let* res := read_as as_results "inference_results" in
  let un := unassigned_query res in
  create_or_replace (unassigned_table config) (ResultsT un) ;;
  ret (COUNT un).

(** The CTE [normalized] of [create_unassigned_blocking_keys]: no filter
    on the text; a NULL text is a NULL [normalized_text], which [unnest]
    turns into no row. *)
Definition unassigned_normalized (rows : list source_row)
  : list (record_id * string) :=
  omap (λ r, (λ t, (row_id r, regexp_replace_non_alnum (LOWER t)))
             <$> row_text r) rows.

Definition create_unassigned_blocking_keys (config : Config) : M Z :=
  let* rows := read_as as_records (unassigned_table config) in
  let* stop := read_as as_stop_words "stop_words" in
  let keys := blocking_keys_query (min_token_length config) stop
                (unassigned_normalized rows) in
  create_or_replace "unassigned_blocking_keys" (KeysT keys) ;;
  ret (COUNT keys).

Definition calculate_unassigned_weights (LN : Q → Q) (config : Config) : M Z :=
  let* bk := read_as as_keys "unassigned_blocking_keys" in
  let weights := weights_query LN bk in
  create_or_replace "unassigned_weights" (WeightsT weights) ;;
  ret (COUNT weights).

Definition find_unassigned_pairs (config : Config) : M Z :=
  let* bk := read_as as_keys "unassigned_blocking_keys" in
  let* uw := read_as as_weights "unassigned_weights" in
  let pairs := candidate_pairs_query bk uw in
  create_or_replace "unassigned_candidate_pairs" (PairsT pairs) ;;
  ret (COUNT pairs).

Definition filter_unassigned_pairs (config : Config) : M Z :=
  let* pairs := read_as as_pairs "unassigned_candidate_pairs" in
  let kept := filter_pairs_query (similarity_threshold config) pairs in
  create_or_replace "unassigned_filtered_pairs" (PairsT kept) ;;
  ret (COUNT kept).

(** [identify_unassigned_components]: an empty table when no pair is
    left, the recursive query of step 1 otherwise. *)
Definition identify_unassigned_components (config : Config) : M Z :=
  let* t := read_table "unassigned_filtered_pairs" in
  if (row_count t =? 0)%Z then
    create_or_replace "unassigned_clusters" (ClustersT []) ;;
    ret 0%Z
  else
    let* fp := read_as as_pairs "unassigned_filtered_pairs" in
    let* rows := run_recursive "unassigned_clusters"
                   (connected_components_query fp) in
    create_or_replace "unassigned_clusters" (ClustersT rows) ;;
    ret (count_distinct_clusters rows).

(** The CTE [cluster_mapping]: [SELECT DISTINCT cluster_id AS
    old_cluster_id, 'NEW_' || ROW_NUMBER() OVER (ORDER BY cluster_id) FROM
    unassigned_clusters].  The window function numbers the rows of
    [unassigned_clusters]; [DISTINCT] applies to the numbered rows. *)
Definition cluster_mapping (uc : list (record_id * cluster_id))
  : list (cluster_id * cluster_id) :=
  remove_dups
    (fmap (λ rn, (rn.1.2, "NEW_" +:+ pretty rn.2))
         (row_numbers (order_by (λ a b, String.leb a.2 b.2) uc))).

(** [SELECT uc.record_id, cm.new_cluster_id AS cluster_id FROM
    unassigned_clusters uc JOIN cluster_mapping cm ON uc.cluster_id =
    cm.old_cluster_id].  The CTE [max_existing] is referenced nowhere in
    the statement. *)
Definition new_clusters_query (uc : list (record_id * cluster_id))
  : list (record_id * cluster_id) :=
  uc ≫= (λ u, cluster_mapping uc ≫= (λ cm,
    if bool_decide (u.2 = cm.1) then [(u.1, cm.2)] else [])).

Definition generate_new_cluster_ids (config : Config) : M unit :=
  let* uc := read_as as_clusters "unassigned_clusters" in
  create_or_replace "new_clusters" (ClustersT (new_clusters_query uc)).

(** [UPDATE prime SET cluster_id = nc.cluster_id FROM new_clusters nc
    WHERE prime.id = nc.record_id].  A row of the prime table that no row
    of [new_clusters] matches is left as it is; when several match, the
    first one is taken. *)
Definition update_prime_query (prime : list (source_row * option cluster_id))
    (nc : list (record_id * cluster_id))
  : list (source_row * option cluster_id) :=
  fmap (λ r, match filter (λ n, n.1 = row_id r.1) nc with
            | [] => r
            | n :: _ => (r.1, Some n.2)
            end) prime.

Definition update_prime_table (config : Config) : M Z :=
  let* t := read_table "new_clusters" in
  let new_count := row_count t in
  (if (0 <? new_count)%Z then
     let* nc := read_as as_clusters "new_clusters" in
     let* prime := read_as as_prime (prime_table config) in
     create_or_replace (prime_table config)
       (PrimeT (update_prime_query prime nc))
   else ret tt) ;;
  ret new_count.

(** The dictionary returned by [get_cleanup_stats] and [run_step_3]. *)
Record cleanup_stats := CleanupStats {
  total_unassigned : Z;
  newly_clustered : Z;
  new_clusters_created : Z;
  still_unassigned : Z
}.

Definition get_cleanup_stats (config : Config) : M cleanup_stats :=
  let* un := read_table (unassigned_table config) in
  let* t := read_table "new_clusters" in
  let* nc := read_as as_clusters "new_clusters" in
  let unassigned := row_count un in
  let newly := row_count t in
  ret {| total_unassigned := unassigned;
         newly_clustered := newly;
         new_clusters_created := count_distinct_clusters nc;
         still_unassigned := unassigned - newly |}.

(** [run_step_3] *)
Definition run_step_3 (LN : Q → Q) (config : Config) : M cleanup_stats :=
  let* unassigned_count := identify_unassigned config in
  if (unassigned_count =? 0)%Z then
    ret {| total_unassigned := 0; newly_clustered := 0;
           new_clusters_created := 0; still_unassigned := 0 |}
  else
    create_unassigned_blocking_keys config ;;
    calculate_unassigned_weights LN config ;;
    find_unassigned_pairs config ;;
    filter_unassigned_pairs config ;;
    identify_unassigned_components config ;;
    generate_new_cluster_ids config ;;
    update_prime_table config ;;
    get_cleanup_stats config.


(* ================================================================== *)
(** * Vocabulary of the statements *)
(* ================================================================== *)

(** Every character of [s] satisfies [p]. *)
Fixpoint string_forall (p : ascii → bool) (s : string) : bool :=
  match s with
  | EmptyString => true
  | String c s' => p c && string_forall p s'
  end.

(** The characters a token is made of by the specification: ASCII
    lower-case letters and digits. *)
Definition is_token_char (c : ascii) : bool := is_lower c || is_digit c.

(** The characters a token can be made of in the code: the former, and
    the characters of [\s] other than the space. *)
Definition is_key_char (c : ascii) : bool :=
  is_token_char c || (is_space c && negb (Ascii.eqb c " "%char)).

(** The blocking keys that step 1 builds from the rows of the source
    table. *)
Definition build_keys (config : Config) (src : list source_row)
  : list (record_id * token) :=
  blocking_keys_query (min_token_length config)
    (elements (stop_words config))
    (fmap (λ r, (r.1.1, r.2)) (normalized_text_query src)).

(** The pairs that step 1 keeps from them. *)
Definition build_pairs (LN : Q → Q) (config : Config) (src : list source_row)
  : list (record_id * record_id * Q) :=
  let bk := build_keys config src in
  filter_pairs_query (similarity_threshold config)
    (candidate_pairs_query bk (weights_query LN bk)).

(** The tokens that two records share in a table of blocking keys: the
    tokens of the rows of [a] that [b] has too. *)
Definition shared_tokens (bk : list (record_id * token)) (a b : record_id)
  : list token :=
  filter (λ t, (b, t) ∈ bk) (filter (λ k, k.1 = a) bk).*2.

(** The weight of a token in the weight table, nothing for a token the
    table does not hold. *)
Definition weight_of (tw : list (token * Q)) (t : token) : Q :=
  SUM (filter (λ w, w.1 = t) tw).*2.


(** The tables that step 2 creates. *)
Definition step_2_tables (config : Config) : list string :=
  ["new_record_tokens"; "inference_candidates"; "ranked_matches";
   inferred_matches_table config; "inference_results"].

(** A command changes no table outside [names]. *)
Definition writes_only {A} (names : list string) (c : M A) : Prop :=
  ∀ db name, name ∉ names → (c db).2 !! name = db !! name.


(* ================================================================== *)
(** * Concrete inputs *)
(* ================================================================== *)

(** A source table with one record whose text holds a tab, under the
    configuration of the engine with its defaults. *)
Definition tab_text : string := "foo" +:+ String "009"%char "bar".

Definition tab_config : Config :=
  SpecificAffinity_init "db" "memo" "id" "tx" (1 # 2) None 2.

Definition tab_db : gmap string table :=
  {[ "tx" := RecordsT [SourceRow "r1" (Some tab_text)] ]}.


Definition two_linked_config : Config :=
  SpecificAffinity_init "db" "memo" "id" "tx" (1 # 2) None 2.

(** Two records with the same one-word text: the blocking keys of a
    corpus in which every token is as frequent as every other. *)
Definition same_token_keys : list (record_id * token) :=
  [("t1", "netflix"); ("t2", "netflix")].

Definition same_token_db : gmap string table :=
  {[ "tx_blocking_keys" := KeysT same_token_keys ]}.

(* ================================================================== *)
(** * The catalogue after step 1 *)
(* ================================================================== *)

(** The table names step 1 reads and writes. *)
Definition step_1_names (config : Config) : list string :=
  [source_table config; "stop_words"; "normalized_text";
   blocking_keys_table config; weights_table config; "candidate_pairs";
   "filtered_pairs"; clusters_table config; prime_table config].

(** The names are pairwise distinct: no statement of step 1 replaces a
    table that a later statement reads under another name. *)
Definition well_named_1 (config : Config) : Prop :=
  NoDup (step_1_names config).

(** The name [stop_words] is free or a table of stop words already. *)
Definition stop_words_free (db : gmap string table) : Prop :=
  match db !! "stop_words" with
  | None | Some (StopWordsT _) => True
  | Some _ => False
  end.

Definition build_clusters (LN : Q → Q) (config : Config)
    (src : list source_row) : list (record_id * cluster_id) :=
  cc_select (cc_anchor (build_pairs LN config src)).

Definition build_prime (LN : Q → Q) (config : Config)
    (src : list source_row) : list (source_row * option cluster_id) :=
  prime_table_query src (build_clusters LN config src).

(** The catalogue that step 1 leaves when it runs on the source rows
    [src]: the eight tables, written in the order of the statements. *)
Definition built_db (LN : Q → Q) (config : Config) (src : list source_row)
    (db : gmap string table) : gmap string table :=
  let bk := build_keys config src in
  let tw := weights_query LN bk in
  <[prime_table config := PrimeT (build_prime LN config src)]>
  (<[clusters_table config := ClustersT (build_clusters LN config src)]>
  (<["filtered_pairs" := PairsT (build_pairs LN config src)]>
  (<["candidate_pairs" := PairsT (candidate_pairs_query bk tw)]>
  (<[weights_table config := WeightsT tw]>
  (<[blocking_keys_table config := KeysT bk]>
  (<["normalized_text" := NormalizedT (normalized_text_query src)]>
  (<["stop_words" := StopWordsT (elements (stop_words config))]> db))))))).

(** Three normalised texts: [alpha] is in two of them, [beta] in all. *)
Definition three_texts : list (record_id * string) :=
  [("t1", "alpha beta"); ("t2", "alpha beta"); ("t3", "beta")].

(* ================================================================== *)
(** * Vocabulary of inference *)
(* ================================================================== *)








(** A built catalogue: two reference records, of which [t1] only is
    clustered, and two new records. *)
Definition infer_config : Config :=
  SpecificAffinity_init "db" "memo" "id" "tx" (1 # 2) None 2.

Definition infer_new_records : list source_row :=
  [SourceRow "n1" (Some "ALPHA gamma"); SourceRow "n2" (Some "beta?")].

Definition infer_keys : list (record_id * token) :=
  [("t1", "alpha"); ("t2", "beta")].

Definition infer_weights : list (token * Q) := [("alpha", 1%Q); ("beta", 1 # 2)].

Definition infer_prime : list (source_row * option cluster_id) :=
  [(SourceRow "t1" (Some "Alpha"), Some "t1");
   (SourceRow "t2" (Some "Beta"), None)].

Definition infer_db : gmap string table :=
  <["new_tx" := RecordsT infer_new_records]>
  (<["stop_words" := StopWordsT []]>
  (<["tx_blocking_keys" := KeysT infer_keys]>
  (<["tx_weights" := WeightsT infer_weights]>
  (<["tx_prime" := PrimeT infer_prime]> ∅)))).



Definition tied_prime : list (source_row * option cluster_id) :=
  [(SourceRow "t1" (Some "Alpha"), Some "t1");
   (SourceRow "t2" (Some "Alpha"), Some "t2")].


(** [s] without its first [n] characters, and the test that [s] ends
    with [suffix]. *)
Fixpoint string_drop (n : nat) (s : string) : string :=
  match n, s with
  | S n', String _ s' => string_drop n' s'
  | _, _ => s
  end.

Definition ends_with (suffix s : string) : bool :=
  String.eqb (string_drop (String.length s - String.length suffix) s) suffix.






(** The blocking keys and the pairs that step 3 builds from the rows of
    [inference_results]. *)
Definition cleanup_keys (config : Config) (stop : list string)
    (res : list result_row) : list (record_id * token) :=
  blocking_keys_query (min_token_length config) stop
    (unassigned_normalized (res_record <$> unassigned_query res)).





(** A catalogue after inference in which both new records are
    unmatched and share no token. *)
Definition unmatched_results : list result_row :=
  [ResultRow (SourceRow "n1" (Some "gamma")) None None None unmatched;
   ResultRow (SourceRow "n2" (Some "delta")) None None None unmatched].

Definition unmatched_db : gmap string table :=
  <["inference_results" := ResultsT unmatched_results]>
  (<["stop_words" := StopWordsT []]>
  (<["tx_prime" := PrimeT infer_prime]> ∅)).



(** A catalogue in the middle of step 3: the prime table of an earlier
    round, in which the record t3 was given the cluster NEW_1, the two
    unmatched records n1 and n2 of this round, and the pair that links
    them. *)
Definition reconcile_prime : list (source_row * option cluster_id) :=
  [(SourceRow "t1" (Some "alpha"), Some "t1");
   (SourceRow "t3" (Some "gamma"), Some "NEW_1")].



(* ================================================================== *)
(** * Further functions of the configuration and the engine *)
(* ================================================================== *)


(** [Config.remove_stop_words] *)
Definition remove_stop_words (words : gset string) (c : Config) : Config :=
  {| db_path := db_path c; text_field := text_field c;
     id_field := id_field c; source_table := source_table c;
     similarity_threshold := similarity_threshold c;
     stop_words := stop_words c ∖ words;
     min_token_length := min_token_length c;
     prime_table := prime_table c;
     blocking_keys_table := blocking_keys_table c;
     weights_table := weights_table c;
     clusters_table := clusters_table c;
     inferred_matches_table := inferred_matches_table c;
     unassigned_table := unassigned_table c |}.

(* ================================================================== *)
(** * Inference for one text ([infer_single_record]) *)
(* ================================================================== *)

(** The white space of a Python [str]: the characters that [\s] matches
    in a [str] pattern and at which [str.split()] cuts.  Among the ASCII
    characters these are the codes 9 to 13 and 28 to 32. *)
Definition py_is_space (c : ascii) : bool :=
  let n := nat_of_ascii c in
  ((9 <=? n)%nat && (n <=? 13)%nat) || ((28 <=? n)%nat && (n <=? 32)%nat).

(** [re.sub(r'[^a-zA-Z0-9\s]', ' ', s)] *)
Fixpoint py_sub_non_alnum (s : string) : string :=
  match s with
  | EmptyString => EmptyString
  | String c s' =>
      String (if negb (is_lower c || is_upper c || is_digit c || py_is_space c)
              then " "%char else c)
             (py_sub_non_alnum s')
  end.

(** The pieces of [s] between its white-space characters, the empty ones
    included. *)
Fixpoint split_ws (s : string) : list string :=
  match s with
  | EmptyString => [EmptyString]
  | String c s' =>
      if py_is_space c then EmptyString :: split_ws s'
      else match split_ws s' with
           | [] => [String c EmptyString]
           | t :: ts => String c t :: ts
           end
  end.

(** [str.split()]: the pieces between runs of white space; no piece is
    empty. *)
Definition py_split (s : string) : list string :=
  filter (λ t, t ≠ EmptyString) (split_ws s).

(** [[t for t in normalized.split() if len(t) >= config.min_token_length
    and t not in config.stop_words]] *)
Definition single_record_tokens (config : Config) (text_value : string)
  : list token :=
  filter (λ t, (min_token_length config ≤ LENGTH t)%Z ∧ t ∉ stop_words config)
         (py_split (py_sub_non_alnum (LOWER text_value))).

(** The join of the CTE [matches] before grouping: query token, blocking
    key, weight and prime row, [WHERE pt.cluster_id IS NOT NULL]. *)
Definition single_matches_join (tokens : list token)
    (bk : list (record_id * token)) (tw : list (token * Q))
    (pt : list (source_row * option cluster_id))
  : list (source_row * cluster_id * Q) :=
  tokens ≫= (λ qt, bk ≫= (λ k, tw ≫= (λ w, pt ≫= (λ p,
    match p.2 with
    | Some c =>
        if bool_decide (qt = k.2) && bool_decide (qt = w.1)
           && bool_decide (k.1 = row_id p.1)
        then [(p.1, c, w.2)] else []
    | None => []
    end)))).

(** [ORDER BY similarity_score DESC] on the rows of [matches]. *)
Definition match_score_desc (a b : source_row * cluster_id * Q) : bool :=
  Qle_bool b.2 a.2.

(** [SELECT * FROM matches WHERE similarity_score >= threshold ORDER BY
    similarity_score DESC LIMIT 5], where [matches] groups the join by
    the id, the cluster and the text of the prime row. *)
Definition single_matches_query (threshold : Q) (tokens : list token)
    (bk : list (record_id * token)) (tw : list (token * Q))
    (pt : list (source_row * option cluster_id))
  : list (source_row * cluster_id * Q) :=
  take 5
    (order_by match_score_desc
       (filter (λ m, Qle_bool threshold m.2 = true)
          (group_sum (single_matches_join tokens bk tw pt)))).

(** The dictionary that [infer_single_record] returns. *)
Inductive single_result :=
  | NoValidTokens
  | NoMatchesAboveThreshold
  | Matched (assigned : cluster_id) (matched_id : record_id)
      (matched_text : option string) (score : Q)
      (all_candidates : list (source_row * cluster_id * Q)).

(** [infer_single_record]: without valid token it returns before any
    statement runs. *)
Definition infer_single_record (config : Config) (text_value : string)
  : M single_result :=
  match single_record_tokens config text_value with
  | [] => ret NoValidTokens
  | tokens =>
      let* bk := read_as as_keys (blocking_keys_table config) in
      let* tw := read_as as_weights (weights_table config) in
      let* pt := read_as as_prime (prime_table config) in
      match single_matches_query (similarity_threshold config)
              tokens bk tw pt with
      | [] => ret NoMatchesAboveThreshold
      | top :: rest =>
          ret (Matched top.1.2 (row_id top.1.1) (row_text top.1.1) top.2
                 (top :: rest))
      end
  end.

(* ================================================================== *)
(** * The weight table of the Snowflake matcher ([snowflake_matcher.py]) *)
(* ================================================================== *)

Section SnowflakeWeights.
Variable LN : Q → Q.

(** The final [SELECT] of [SnowflakeMatcher._calculate_weights]: the CTEs
    [token_counts], [weight_calc] and [log_weights] are those of
    [calculate_weights]; every row of [log_weights] is joined with the one
    row of [weight_stats], and its weight is
    [ROUND(CASE WHEN max_weight = min_weight THEN 0.5 ELSE (log_weight -
    min_weight) / NULLIF(max_weight - min_weight, 0) END, 4)]. *)
Definition sf_weights_select (lw : list (token * Q)) : list (token * option Q) :=
  fmap (λ tw,
         (tw.1,
          (λ x, ROUND x 4) <$>
          match MIN_dbl lw.*2, MAX_dbl lw.*2 with
          | Some lo, Some hi =>
              if Qeq_bool hi lo then Some (1 # 2)%Q
              else (λ d, (tw.2 - lo) / d)%Q <$> NULLIF0 (hi - lo)
          | _, _ => None
          end)) lw.

Definition sf_weights_query (tokens_a : list (record_id * token))
  : list (token * option Q) :=
  sf_weights_select (log_weights LN (weight_calc (token_counts tokens_a))).
End SnowflakeWeights.

(* ================================================================== *)
(** * Quality assurance ([qa.py]) *)
(* ================================================================== *)

(** A row of the result of [find_near_threshold_pairs]. *)
Record near_pair := NearPair {
  near_id_1 : record_id;
  near_id_2 : record_id;
  near_score : Q;
  near_text_1 : option string;
  near_text_2 : option string
}.

(** [candidate_pairs cp JOIN prime pt1 ON cp.record_id_1 = pt1.id JOIN
    prime pt2 ON cp.record_id_2 = pt2.id] *)
Definition near_threshold_join (cp : list (record_id * record_id * Q))
    (pt : list (source_row * option cluster_id)) : list near_pair :=
  cp ≫= (λ p, pt ≫= (λ r1, pt ≫= (λ r2,
    if bool_decide (p.1.1 = row_id r1.1) && bool_decide (p.1.2 = row_id r2.1)
    then [NearPair p.1.1 p.1.2 p.2 (row_text r1.1) (row_text r2.1)]
    else []))).

(** [WHERE cp.similarity_score < threshold AND cp.similarity_score >=
    threshold * 0.8 ORDER BY cp.similarity_score DESC LIMIT 15] *)
Definition near_threshold_query (threshold : Q)
    (cp : list (record_id * record_id * Q))
    (pt : list (source_row * option cluster_id)) : list near_pair :=
  take 15
    (order_by (λ a b, Qle_bool (near_score b) (near_score a))
       (filter (λ n, Qle_bool threshold (near_score n) = false ∧
                     Qle_bool (threshold * (8 # 10)) (near_score n) = true)
          (near_threshold_join cp pt))).

Definition find_near_threshold_pairs (config : Config) : M (list near_pair) :=
  let* cp := read_as as_pairs "candidate_pairs" in
  let* pt := read_as as_prime (prime_table config) in
  ret (near_threshold_query (similarity_threshold config) cp pt).

(* ================================================================== *)
(** * Vocabulary of the further properties *)
(* ================================================================== *)

(** The source rows with their texts in lower case. *)
Definition lower_texts (src : list source_row) : list source_row :=
  (λ r, SourceRow (row_id r) (LOWER <$> row_text r)) <$> src.

(** A text made of spaces only. *)
Definition all_spaces (s : string) : bool :=
  string_forall (λ c, Ascii.eqb c " ") s.


(** The number of rows of a token in a table of blocking keys: the rows
    are distinct, so it is the number of records that hold the token. *)
Definition token_freq (bk : list (record_id * token)) (t : token) : Z :=
  COUNT (filter (λ rt, rt.2 = t) bk).

(** The tokens of the query record [q] that the reference record [r]
    holds too. *)
Definition query_shared_tokens (nrt bk : list (record_id * token))
    (q r : record_id) : list token :=
  filter (λ t, (r, t) ∈ bk) (filter (λ k, k.1 = q) nrt).*2.

(** The tables that step 1 creates or replaces. *)
Definition step_1_tables (config : Config) : list string :=
  ["stop_words"; "normalized_text"; blocking_keys_table config;
   weights_table config; "candidate_pairs"; "filtered_pairs";
   clusters_table config; prime_table config].

(** The tables that step 3 creates, replaces or updates. *)
Definition step_3_tables (config : Config) : list string :=
  [unassigned_table config; "unassigned_blocking_keys"; "unassigned_weights";
   "unassigned_candidate_pairs"; "unassigned_filtered_pairs";
   "unassigned_clusters"; "new_clusters"; prime_table config].

(** A list in the order of [le]: every row is below the rows that
    follow it. *)
Fixpoint sorted_by {A} (le : A → A → bool) (l : list A) : Prop :=
  match l with
  | [] => True
  | x :: l' => Forall (λ y, le x y = true) l' ∧ sorted_by le l'
  end.

(* ================================================================== *)
(** * Further concrete inputs *)
(* ================================================================== *)

(** Blocking keys in which [beta] is twice as frequent as [alpha]. *)
Definition freq_keys : list (record_id * token) :=
  [("t1", "alpha"); ("t1", "beta"); ("t2", "beta")].

(** Three records in which [alpha] occurs once, [beta] twice and [gamma]
    three times. *)
Definition graded_rows : list source_row :=
  [SourceRow "t1" (Some "alpha beta gamma");
   SourceRow "t2" (Some "Beta, Gamma");
   SourceRow "t3" (Some "GAMMA")].

Definition graded_config : Config :=
  SpecificAffinity_init "db" "memo" "id" "tx" (1 # 10) None 2.

(** A catalogue that holds a table of new records and nothing else. *)
Definition unbuilt_db : gmap string table :=
  {[ "new_tx" := RecordsT infer_new_records ]}.

(** A catalogue before [update_prime_table]: the new cluster of a record
    of the prime table and the new cluster of a record that it lacks. *)
Definition relabel_db : gmap string table :=
  <["new_clusters" := ClustersT [("t3", "NEW_1"); ("n1", "NEW_2")]]>
  (<["tx_prime" := PrimeT reconcile_prime]> ∅).

(** A built catalogue in which the new record shares two tokens with a
    reference record. *)
Definition score_keys : list (record_id * token) :=
  [("t1", "alpha"); ("t1", "beta"); ("t2", "beta")].

Definition score_weights : list (token * Q) := [("alpha", 1%Q); ("beta", 1 # 4)].

Definition score_tokens : list (record_id * token) :=
  [("n1", "alpha"); ("n1", "beta"); ("n1", "gamma")].


(** A catalogue with two candidate pairs around the threshold 0.5. *)
Definition near_db : gmap string table :=
  <["candidate_pairs" := PairsT [("t1", "t2", 9 # 20); ("t1", "t3", 6 # 10)]]>
  (<["tx_prime" := PrimeT [(SourceRow "t1" (Some "alpha beta"), None);
                           (SourceRow "t2" (Some "alpha"), None);
                           (SourceRow "t3" (Some "alpha beta"), None)]]> ∅).

(* ---- Properties ---- *)

(* ================================================================== *)
(** * Running commands *)
(* ================================================================== *)

Lemma bind_run {A B} (c : M A) (k : A → M B) db a db' :
  c db = (Return a, db') → bind c k db = k a db'.
Proof. unfold bind. by intros ->. Qed.

Lemma bind_raise {A B} (c : M A) (k : A → M B) db e db' :
  c db = (Raise e, db') → bind c k db = (Raise e, db').
Proof. unfold bind. by intros ->. Qed.

Lemma read_table_run name db t :
  db !! name = Some t → read_table name db = (Return t, db).
Proof. unfold read_table. by intros ->. Qed.

Lemma read_as_run {A} (proj : table → option A) name db t a :
  db !! name = Some t → proj t = Some a →
  read_as proj name db = (Return a, db).
Proof.
  intros Hdb Hproj. unfold read_as.
  rewrite (bind_run _ _ _ _ _ (read_table_run _ _ _ Hdb)). by rewrite Hproj.
Qed.

Lemma create_or_replace_run name t db :
  create_or_replace name t db = (Return tt, <[name := t]> db).
Proof. done. Qed.

Lemma ret_run {A} (a : A) db : ret a db = (Return a, db).
Proof. done. Qed.

(* ================================================================== *)
(** * Normalizer and blocking keys *)
(* ================================================================== *)

Example string_split_ex :
  string_split " " "ab  c " = ["ab"; EmptyString; "c"; EmptyString].
Proof. reflexivity. Qed.

Example trim_ex : TRIM "  a b  " = "a b".
Proof. reflexivity. Qed.

Lemma lower_char_not_upper c : is_upper (lower_char c) = false.
Proof.
  unfold lower_char. destruct (is_upper c) eqn:E; [|done].
  unfold is_upper in *.
  apply andb_true_iff in E as [E1 E2].
  apply Nat.leb_le in E1, E2.
  rewrite nat_ascii_embedding by lia.
  apply andb_false_iff. right. apply Nat.leb_gt. lia.
Qed.

Lemma string_forall_split p sep s :
  string_forall p s = true →
  Forall (λ t, string_forall p t = true) (string_split sep s).
Proof.
  induction s as [|c s IH]; simpl; intros H.
  - by repeat constructor.
  - apply andb_true_iff in H as [Hc Hs]. specialize (IH Hs).
    destruct (Ascii.eqb c sep).
    + by constructor.
    + destruct (string_split sep s) as [|t ts]; simpl.
      * repeat constructor. simpl. by rewrite Hc.
      * inversion IH; subst. constructor; [|done]. simpl. by rewrite Hc.
Qed.

(** The pieces of a split hold no separator. *)
Lemma string_split_no_sep sep s :
  Forall (λ t, string_forall (λ c, negb (Ascii.eqb c sep)) t = true)
         (string_split sep s).
Proof.
  induction s as [|c s IH]; simpl.
  - by repeat constructor.
  - destruct (Ascii.eqb c sep) eqn:E.
    + by constructor.
    + destruct (string_split sep s) as [|t ts]; simpl.
      * repeat constructor. simpl. by rewrite E.
      * inversion IH; subst. constructor; [|done]. simpl. by rewrite E.
Qed.

Lemma string_forall_and p q s :
  string_forall p s = true → string_forall q s = true →
  string_forall (λ c, p c && q c) s = true.
Proof.
  induction s as [|c s IH]; simpl; [done|].
  intros [??]%andb_true_iff [??]%andb_true_iff.
  rewrite IH by done. by repeat (apply andb_true_iff; split).
Qed.

Lemma string_forall_impl (p q : ascii → bool) s :
  (∀ c, p c = true → q c = true) →
  string_forall p s = true → string_forall q s = true.
Proof.
  intros Hpq. induction s as [|c s IH]; simpl; [done|].
  intros [??]%andb_true_iff. apply andb_true_iff. auto.
Qed.

(** After [LOWER] and the replacement, a character is a lower-case
    letter, a digit or a character of [\s]. *)
Lemma normalized_chars s :
  string_forall (λ c, is_token_char c || is_space c)
                (regexp_replace_non_alnum (LOWER s)) = true.
Proof.
  induction s as [|c s IH]; simpl; [done|].
  rewrite IH, andb_true_r.
  unfold not_alnum_space.
  rewrite lower_char_not_upper, orb_false_r.
  unfold is_token_char.
  destruct (is_lower (lower_char c)) eqn:E1, (is_digit (lower_char c)) eqn:E2,
    (is_space (lower_char c)) eqn:E3; simpl; rewrite ?E1, ?E2, ?E3; reflexivity.
Qed.

Lemma elem_of_tokenized norm r t :
  (r, t) ∈ tokenized norm ↔ (∃ n, (r, n) ∈ norm ∧ t ∈ string_split " " n).
Proof.
  unfold tokenized. rewrite list_elem_of_bind. split.
  - intros [[r' n] [Hin Hn]]. apply list_elem_of_fmap in Hin as [t' [[= -> ->] Ht]].
    eauto.
  - intros [n [Hn Ht]]. exists (r, n). split; [|done].
    apply list_elem_of_fmap. eauto.
Qed.

(** What the [WHERE] clause and [DISTINCT] of the blocking keys say. *)
Lemma elem_of_blocking_keys min_len stop norm r t :
  (r, t) ∈ blocking_keys_query min_len stop norm ↔
  (min_len ≤ LENGTH t)%Z ∧ (t ∉ stop) ∧
  (∃ n, (r, n) ∈ norm ∧ t ∈ string_split " " n).
Proof.
  unfold blocking_keys_query.
  rewrite elem_of_remove_dups, list_elem_of_filter, elem_of_tokenized.
  simpl. tauto.
Qed.

Lemma blocking_keys_NoDup min_len stop norm :
  NoDup (blocking_keys_query min_len stop norm).
Proof. apply NoDup_remove_dups. Qed.

Lemma elem_of_normalized_text src r t n :
  (r, t, n) ∈ normalized_text_query src →
  n = regexp_replace_non_alnum (LOWER t).
Proof.
  unfold normalized_text_query. rewrite list_elem_of_omap.
  intros [row [_ H]]. destruct (row_text row); [|done].
  destruct (0 <? _)%Z; [|done]. by injection H as <- <- <-.
Qed.

(** The part of the invariant that the blocking keys of step 1 do have:
    distinct rows, tokens of the minimum length that are no stop word,
    made of lower-case letters, digits and the characters of [\s] other
    than the space. *)
Lemma build_keys_invariant config src :
  NoDup (build_keys config src) ∧
  ∀ r t, (r, t) ∈ build_keys config src →
    (min_token_length config ≤ LENGTH t)%Z ∧
    (t ∉ stop_words config) ∧
    string_forall is_key_char t = true.
Proof.
  split; [apply blocking_keys_NoDup|].
  intros r t. unfold build_keys. rewrite elem_of_blocking_keys.
  intros (Hlen & Hstop & n & Hn & Ht). split; [done|]. split.
  - by rewrite <- elem_of_elements.
  - apply list_elem_of_fmap in Hn as [[[r' t'] n'] [[= -> ->] Hn]].
    apply elem_of_normalized_text in Hn as ->.
    pose proof (normalized_chars t') as Hc.
    apply (string_forall_split _ " "%char) in Hc.
    pose proof (string_split_no_sep " "%char
                  (regexp_replace_non_alnum (LOWER t'))) as Hs.
    rewrite Forall_forall in Hc, Hs.
    specialize (Hc _ Ht). specialize (Hs _ Ht).
    eapply string_forall_impl; [|exact (string_forall_and _ _ _ Hc Hs)].
    intros c. unfold is_key_char. simpl.
    destruct (is_token_char c), (is_space c), (Ascii.eqb c " "); done.
Qed.

(** C10, at a record whose text is [foo<TAB>bar]: the first three
    statements of step 1 complete and the blocking keys hold the single
    token [foo<TAB>bar], which is not made of lower-case letters and digits
    only.  The regular expression keeps the characters of [\s] and
    [string_split] cuts at spaces only, whereas [infer_single_record] cuts
    with [str.split()] at any white space. *)
Theorem blocking_keys_token_with_tab :
  let out := (create_stop_words_table tab_config ;;
              create_normalized_text_view tab_config ;;
              create_blocking_keys tab_config) tab_db in
  out.1 = Return 1%Z ∧
  out.2 !! blocking_keys_table tab_config = Some (KeysT [("r1", tab_text)]) ∧
  string_forall is_token_char tab_text = false ∧
  string_forall (λ c, negb (is_space c)) tab_text = false.
Proof. vm_compute. repeat split; reflexivity. Qed.

(* ================================================================== *)
(** * SQL operators *)
(* ================================================================== *)

Lemma filter_none {A} (P : A → Prop) `{∀ x, Decision (P x)} (l : list A) :
  (∀ x, x ∈ l → ¬ P x) → filter P l = [].
Proof.
  induction l as [|x l IH]; intros Hl; [done|].
  rewrite filter_cons. destruct (decide (P x)) as [HP|_].
  - exfalso. apply (Hl x); [left|done].
  - apply IH. intros y Hy. apply Hl. by right.
Qed.

Lemma insert_by_Permutation {A} (le : A → A → bool) x l :
  insert_by le x l ≡ₚ x :: l.
Proof.
  induction l as [|y l IH]; simpl; [done|].
  destruct (le x y); [done|]. rewrite IH. apply perm_swap.
Qed.

Lemma order_by_Permutation {A} (le : A → A → bool) l :
  order_by le l ≡ₚ l.
Proof.
  induction l as [|x l IH]; simpl; [done|].
  rewrite insert_by_Permutation. by rewrite IH.
Qed.

Lemma elem_of_order_by {A} (le : A → A → bool) l x :
  x ∈ order_by le l ↔ x ∈ l.
Proof. by rewrite order_by_Permutation. Qed.




(* ================================================================== *)
(** * Connected components *)
(* ================================================================== *)







(* ================================================================== *)
(** * Weight table *)
(* ================================================================== *)

Lemma NULLIF0_zero x : (x == 0)%Q → NULLIF0 x = None.
Proof.
  intros Hx. unfold NULLIF0.
  by rewrite (proj2 (Qeq_bool_iff x 0) Hx).
Qed.

(** When the greatest log weight equals the least, every normalised
    weight is NULL and the final [WHERE normalized_weight IS NOT NULL]
    keeps no row: the [COALESCE(normalized_weight, 0)] of the select list
    never sees a NULL. *)
Lemma weights_select_degenerate lw :
  (∀ lo hi, MIN_dbl lw.*2 = Some lo → MAX_dbl lw.*2 = Some hi → (hi == lo)%Q) →
  weights_select (normalized lw) = [].
Proof.
  intros Heq. unfold normalized.
  destruct (MIN_dbl lw.*2) as [lo|] eqn:Hlo; [|done].
  destruct (MAX_dbl lw.*2) as [hi|] eqn:Hhi; [|done].
  rewrite NULLIF0_zero.
  - unfold weights_select. rewrite filter_none; [done|].
    intros x [tw [-> _]]%list_elem_of_fmap. simpl. auto.
  - rewrite (Heq lo hi) by done. ring.
Qed.

Lemma weights_query_degenerate LN bk :
  (∀ lo hi,
     MIN_dbl (log_weights LN (weight_calc (token_counts bk))).*2 = Some lo →
     MAX_dbl (log_weights LN (weight_calc (token_counts bk))).*2 = Some hi →
     (hi == lo)%Q) →
  weights_query LN bk = [].
Proof. apply weights_select_degenerate. Qed.


(* ================================================================== *)
(** * Bounds of the weights *)
(* ================================================================== *)

Lemma foldr_Qmin2_le x xs :
  (foldr Qmin2 x xs <= x)%Q ∧ ∀ y, y ∈ xs → (foldr Qmin2 x xs <= y)%Q.
Proof.
  induction xs as [|a xs [IHx IHy]]; simpl.
  - split; [apply Qle_refl|]. intros y Hy. by apply not_elem_of_nil in Hy.
  - unfold Qmin2 at 1 3. destruct (Qle_bool a (foldr Qmin2 x xs)) eqn:E.
    + apply Qle_bool_iff in E. split.
      * by apply Qle_trans with (foldr Qmin2 x xs).
      * intros y [->|Hy]%elem_of_cons; [apply Qle_refl|].
        apply Qle_trans with (foldr Qmin2 x xs); auto.
    + assert (foldr Qmin2 x xs <= a)%Q as Hle.
      { destruct (Qlt_le_dec (foldr Qmin2 x xs) a) as [H|H].
        - by apply Qlt_le_weak.
        - apply Qle_bool_iff in H. congruence. }
      split; [done|]. intros y [->|Hy]%elem_of_cons; auto.
Qed.

Lemma foldr_Qmax2_ge x xs :
  (x <= foldr Qmax2 x xs)%Q ∧ ∀ y, y ∈ xs → (y <= foldr Qmax2 x xs)%Q.
Proof.
  induction xs as [|a xs [IHx IHy]]; simpl.
  - split; [apply Qle_refl|]. intros y Hy. by apply not_elem_of_nil in Hy.
  - unfold Qmax2 at 1 3. destruct (Qle_bool a (foldr Qmax2 x xs)) eqn:E.
    + apply Qle_bool_iff in E. split; [done|].
      intros y [->|Hy]%elem_of_cons; auto.
    + assert (foldr Qmax2 x xs <= a)%Q as Hle.
      { destruct (Qlt_le_dec (foldr Qmax2 x xs) a) as [H|H].
        - by apply Qlt_le_weak.
        - apply Qle_bool_iff in H. congruence. }
      split.
      * by apply Qle_trans with (foldr Qmax2 x xs).
      * intros y [->|Hy]%elem_of_cons; [apply Qle_refl|].
        apply Qle_trans with (foldr Qmax2 x xs); auto.
Qed.

Lemma MIN_dbl_le l lo x : MIN_dbl l = Some lo → x ∈ l → (lo <= x)%Q.
Proof.
  destruct l as [|a l]; [done|]. intros [= <-] Hx.
  destruct (foldr_Qmin2_le a l) as [Ha Hl].
  apply elem_of_cons in Hx as [->|Hx]; auto.
Qed.

Lemma MAX_dbl_ge l hi x : MAX_dbl l = Some hi → x ∈ l → (x <= hi)%Q.
Proof.
  destruct l as [|a l]; [done|]. intros [= <-] Hx.
  destruct (foldr_Qmax2_ge a l) as [Ha Hl].
  apply elem_of_cons in Hx as [->|Hx]; auto.
Qed.

(** Rounding to four decimal places keeps a value of the unit interval
    in the unit interval. *)
Lemma ROUND_unit x : (0 <= x)%Q → (x <= 1)%Q → (0 <= ROUND x 4 <= 1)%Q.
Proof.
  intros H0 H1. unfold ROUND.
  rewrite (proj2 (Qle_bool_iff 0 x) H0).
  change (10 ^ Z.of_nat 4)%Z with 10000%Z.
  assert (0 ≤ Qfloor (x * inject_Z 10000 + (1 # 2)))%Z as Hlo.
  { change 0%Z with (Qfloor 0). apply Qfloor_resp_le.
    assert (0 <= x * inject_Z 10000)%Q by (by apply Qmult_le_0_compat).
    apply Qle_trans with (x * inject_Z 10000)%Q; [done|].
    rewrite <- (Qplus_0_r (x * inject_Z 10000)) at 1.
    by apply Qplus_le_r. }
  assert (Qfloor (x * inject_Z 10000 + (1 # 2)) ≤ 10000)%Z as Hhi.
  { change 10000%Z with (Qfloor (inject_Z 10000 + (1 # 2))) at 2.
    apply Qfloor_resp_le, Qplus_le_l.
    rewrite <- (Qmult_1_l (inject_Z 10000)) at 2.
    by apply Qmult_le_compat_r. }
  set (n := Qfloor (x * inject_Z 10000 + (1 # 2))) in *.
  unfold Qle. simpl. lia.
Qed.

(** Every weight of the weight table is the rounded min-max
    normalisation of a log weight, and lies between 0 and 1. *)
Lemma weights_query_bounds LN bk t w :
  (t, w) ∈ weights_query LN bk →
  ∃ lw lo hi,
    (t, lw) ∈ log_weights LN (weight_calc (token_counts bk)) ∧
    MIN_dbl (log_weights LN (weight_calc (token_counts bk))).*2 = Some lo ∧
    MAX_dbl (log_weights LN (weight_calc (token_counts bk))).*2 = Some hi ∧
    ¬ (hi == lo)%Q ∧
    w = ROUND ((lw - lo) / (hi - lo)) 4 ∧
    (0 <= w <= 1)%Q.
Proof.
  unfold weights_query, weights_select, normalized.
  set (rows := log_weights LN (weight_calc (token_counts bk))).
  intros [[t' ow] [[= -> ->] Hin]]%list_elem_of_fmap.
  apply list_elem_of_filter in Hin as [Hnn Hin]. simpl in Hnn.
  destruct (MIN_dbl rows.*2) as [lo|] eqn:Hlo; [|by apply not_elem_of_nil in Hin].
  destruct (MAX_dbl rows.*2) as [hi|] eqn:Hhi; [|by apply not_elem_of_nil in Hin].
  apply list_elem_of_fmap in Hin as [[t lw] [[= -> ->] Hin]].
  unfold NULLIF0 in *. destruct (Qeq_bool (hi - lo) 0) eqn:Hz; [done|].
  assert (¬ (hi == lo)%Q) as Hne.
  { intros Heq. apply Qeq_bool_neq in Hz. apply Hz. rewrite Heq. ring. }
  assert (lw ∈ rows.*2) as Hlw by (apply list_elem_of_fmap; by exists (t, lw)).
  pose proof (MIN_dbl_le _ _ _ Hlo Hlw) as H1.
  pose proof (MAX_dbl_ge _ _ _ Hhi Hlw) as H2.
  assert (0 < hi - lo)%Q as Hpos.
  { assert (lo <= hi)%Q as Hle by (by apply Qle_trans with lw).
    apply Qle_lt_or_eq in Hle as [Hlt|Heq].
    - unfold Qminus. exact (proj1 (Qlt_minus_iff lo hi) Hlt).
    - exfalso. apply Hne. by symmetry. }
  assert (0 <= (lw - lo) / (hi - lo))%Q as Hge.
  { apply Qle_shift_div_l; [done|]. rewrite Qmult_0_l.
    unfold Qminus. exact (proj1 (Qle_minus_iff lo lw) H1). }
  assert ((lw - lo) / (hi - lo) <= 1)%Q as Hle.
  { apply Qle_shift_div_r; [done|]. rewrite Qmult_1_l.
    unfold Qminus. by apply Qplus_le_l. }
  exists lw, lo, hi.
  split; [done|]. split; [done|]. split; [done|]. split; [done|].
  split; [done|]. simpl. by apply ROUND_unit.
Qed.

Lemma fmap_fst_preserved {A B C} (f : A * B → A * C) (l : list (A * B)) :
  (∀ x, (f x).1 = x.1) → (f <$> l).*1 = l.*1.
Proof.
  intros Hf. induction l as [|x l IH]; [done|].
  by rewrite !fmap_cons, IH, Hf.
Qed.

Lemma NoDup_fst_omap {A B C} (f : A * B → option (A * C)) (l : list (A * B)) :
  (∀ x y, f x = Some y → y.1 = x.1) → NoDup l.*1 → NoDup (omap f l).*1.
Proof.
  intros Hf. induction l as [|x l IH]; [done|].
  rewrite fmap_cons. intros [Hx Hl]%NoDup_cons. simpl.
  destruct (f x) as [y|] eqn:E; [|auto].
  rewrite fmap_cons. apply NoDup_cons. split; [|auto].
  rewrite (Hf x y E). intros Hin. apply Hx.
  apply list_elem_of_fmap in Hin as [z [-> Hz]].
  apply list_elem_of_omap in Hz as [x' [Hx' Hfx']].
  rewrite (Hf x' z Hfx'). by apply list_elem_of_fmap_2.
Qed.

Lemma NoDup_fst_filter {A B} (P : A * B → Prop) `{∀ x, Decision (P x)}
    (l : list (A * B)) :
  NoDup l.*1 → NoDup (filter P l).*1.
Proof.
  induction l as [|x l IH]; [done|].
  rewrite fmap_cons, filter_cons. intros [Hx Hl]%NoDup_cons.
  destruct (decide (P x)); [|auto].
  rewrite fmap_cons. apply NoDup_cons. split; [|auto].
  intros Hin. apply Hx.
  apply list_elem_of_fmap in Hin as [z [-> Hz]].
  apply list_elem_of_filter in Hz as [_ Hz]. by apply list_elem_of_fmap_2.
Qed.

(** The weight table has one row per token at most. *)
Lemma weights_query_NoDup LN bk : NoDup (weights_query LN bk).*1.
Proof.
  unfold weights_query, weights_select.
  rewrite fmap_fst_preserved by done.
  apply NoDup_fst_filter. unfold normalized.
  destruct (MIN_dbl _) as [lo|]; [|apply NoDup_nil_2].
  destruct (MAX_dbl _) as [hi|]; [|apply NoDup_nil_2].
  rewrite fmap_fst_preserved by done.
  unfold log_weights. apply NoDup_fst_omap.
  { intros [t ow] y. simpl. destruct ow as [w|]; [|done].
    destruct (_ && _); [|done]. by intros [= <-]. }
  unfold weight_calc, token_counts. rewrite <- !list_fmap_compose.
  assert (∀ (h : token → token) (l : list token),
            (∀ t, h t = t) → h <$> l = l) as Hid.
  { intros h l Hh. induction l as [|t l IH]; [done|].
    by rewrite fmap_cons, IH, Hh. }
  rewrite Hid by done.
  apply NoDup_remove_dups.
Qed.

(* ================================================================== *)
(** * Step 1 as a whole *)
(* ================================================================== *)

(** Lookups through the tables a command has written. *)
Ltac solve_lookup :=
  repeat (rewrite lookup_insert_ne by (congruence || done));
  first [ apply lookup_insert_eq | eassumption | done ].

(** Runs the next statement of a command whose tables are at hand. *)
Ltac run_with lem :=
  erewrite bind_run; [| eapply lem; try solve_lookup; try reflexivity ].

Lemma create_stop_words_table_run config db :
  stop_words_free db →
  create_stop_words_table config db
  = (Return tt, <["stop_words" := StopWordsT (elements (stop_words config))]> db).
Proof.
  unfold stop_words_free, create_stop_words_table.
  destruct (db !! "stop_words") as [[]|]; done.
Qed.



Lemma calculate_weights_run LN config db bk :
  db !! blocking_keys_table config = Some (KeysT bk) →
  calculate_weights LN config db
  = (Return (COUNT (weights_query LN bk)),
     <[weights_table config := WeightsT (weights_query LN bk)]> db).
Proof.
  intros Hbk. unfold calculate_weights.
  run_with (read_as_run as_keys).
  by run_with create_or_replace_run.
Qed.







(** Splits the distinctness of a list of names into its inequalities. *)
Ltac split_names H :=
  repeat (apply NoDup_cons in H as [? H]);
  repeat match goal with
         | Hn : _ ∉ _ :: _ |- _ => apply not_elem_of_cons in Hn as [? ?]
         end.


(** C3, at the blocking keys of two records that both read [netflix]:
    the only log weight is both the maximum and the minimum, and
    [calculate_weights] stores an empty weight table, so the token
    [netflix] has no weight at all instead of the weight 0. *)
Theorem degenerate_corpus_has_no_weights (LN : Q → Q) :
  weights_query LN same_token_keys = [] ∧
  calculate_weights LN two_linked_config same_token_db
    = (Return 0%Z, <["tx_weights" := WeightsT []]> same_token_db).
Proof.
  assert (weights_query LN same_token_keys = []) as Hw.
  { apply weights_query_degenerate. intros lo hi.
    vm_compute. by intros [= <-] [= <-]. }
  split; [done|].
  etrans; [apply (calculate_weights_run LN _ _ same_token_keys); by vm_compute|].
  by rewrite Hw.
Qed.

(* ================================================================== *)
(** * Sums over rows *)
(* ================================================================== *)

Lemma SUM_cons x l : SUM (x :: l) = (x + SUM l)%Q.
Proof. done. Qed.

Lemma SUM_app l1 l2 : (SUM (l1 ++ l2) == SUM l1 + SUM l2)%Q.
Proof.
  induction l1 as [|x l1 IH]; simpl; [ring|]. rewrite IH. ring.
Qed.

Lemma SUM_fmap_ext {A} (f g : A → Q) l :
  (∀ x, x ∈ l → (f x == g x)%Q) → (SUM (f <$> l) == SUM (g <$> l))%Q.
Proof.
  induction l as [|x l IH]; intros Hfg; simpl; [reflexivity|].
  rewrite IH, (Hfg x); [reflexivity|left|].
  intros y Hy. apply Hfg. by right.
Qed.

Lemma SUM_filter_bind {A K} (P : K * Q → Prop) `{∀ x, Decision (P x)}
    (f : A → list (K * Q)) l :
  (SUM (filter P (l ≫= f)).*2 == SUM ((λ x, SUM (filter P (f x)).*2) <$> l))%Q.
Proof.
  induction l as [|x l IH]; simpl; [reflexivity|].
  rewrite filter_app, fmap_app, SUM_app, IH. reflexivity.
Qed.

(** A sum in which one row at most counts. *)
Lemma SUM_single {A} `{EqDecision A} (l : list A) (y : A) (c : Q) :
  NoDup l →
  (SUM ((λ x, if decide (x = y) then c else 0) <$> l)
   == if decide (y ∈ l) then c else 0)%Q.
Proof.
  induction 1 as [|x l Hx _ IH].
  - rewrite decide_False by apply not_elem_of_nil. reflexivity.
  - rewrite fmap_cons. unfold SUM in *. rewrite foldr_cons, IH.
    repeat case_decide; subst; try ring; exfalso;
      match goal with
      | Hn : _ ∉ _ :: _ |- _ => apply Hn; by constructor
      | Hi : _ ∈ _ :: _ |- _ => apply elem_of_cons in Hi as [?|?]; done
      end.
Qed.

Lemma SUM_fmap_filter {A} (g : A → Q) (P : A → Prop) `{∀ x, Decision (P x)} l :
  (SUM ((λ x, if decide (P x) then g x else 0) <$> l)
   == SUM (g <$> filter P l))%Q.
Proof.
  induction l as [|x l IH]; [reflexivity|].
  rewrite filter_cons, fmap_cons. unfold SUM in *. rewrite foldr_cons, IH.
  destruct (decide (P x)); [rewrite fmap_cons, foldr_cons|]; ring.
Qed.

(** Membership in the result of a [GROUP BY ... SUM]. *)
Lemma elem_of_group_sum {K} `{EqDecision K} (rows : list (K * Q)) k s :
  (k, s) ∈ group_sum rows ↔
  k ∈ rows.*1 ∧ s = SUM (filter (λ kv, kv.1 = k) rows).*2.
Proof.
  unfold group_sum. rewrite list_elem_of_fmap. split.
  - intros [k' [[= <- ->] Hk]]. rewrite elem_of_remove_dups in Hk.
    split; [exact Hk|reflexivity].
  - intros [Hk ->]. exists k. split; [reflexivity|].
    by apply elem_of_remove_dups.
Qed.

Lemma group_sum_NoDup {K} `{EqDecision K} (rows : list (K * Q)) :
  NoDup (group_sum rows).*1.
Proof.
  unfold group_sum.
  assert (∀ (g : K → Q) (l : list K), (fmap (λ k, (k, g k)) l).*1 = l) as ->.
  { intros g l. induction l as [|k l IH]; [done|]. by rewrite !fmap_cons, IH. }
  apply NoDup_remove_dups.
Qed.

Lemma SUM_zeros {A} (l : list A) : (SUM ((λ _, 0%Q) <$> l) == 0)%Q.
Proof.
  induction l as [|x l IH]; [reflexivity|].
  rewrite fmap_cons. unfold SUM in *. rewrite foldr_cons, IH. ring.
Qed.

(* ================================================================== *)
(** * Candidate pairs *)
(* ================================================================== *)

Lemma elem_of_pairs_join bk tw a b s :
  (a, b, s) ∈ pairs_join bk tw ↔
  ∃ t, (a, t) ∈ bk ∧ (b, t) ∈ bk ∧ (t, s) ∈ tw ∧ String.ltb a b = true.
Proof.
  unfold pairs_join. rewrite list_elem_of_bind. split.
  - intros [[a' t1] [H1 Hk1]].
    apply list_elem_of_bind in H1 as [[b' t2] [H2 Hk2]].
    apply list_elem_of_bind in H2 as [[t3 s'] [H3 Hw]].
    simpl in H3.
    destruct (bool_decide (t1 = t2) && bool_decide (t1 = t3) && String.ltb a' b')
      eqn:E; [|by apply not_elem_of_nil in H3].
    apply list_elem_of_singleton in H3 as [= -> -> ->].
    apply andb_true_iff in E as [E Hlt].
    apply andb_true_iff in E as [E1 E2].
    apply bool_decide_eq_true in E1 as <-, E2 as <-.
    exists t1. done.
  - intros (t & Ha & Hb & Hw & Hlt). exists (a, t). split; [|done].
    apply list_elem_of_bind. exists (b, t). split; [|done].
    apply list_elem_of_bind. exists (t, s). split; [|done].
    simpl. rewrite !bool_decide_eq_true_2, Hlt by done. simpl. left.
Qed.

Lemma SUM_filter_if {K} `{EqDecision K} (c : bool) (k k0 : K) (s : Q) :
  (SUM (filter (λ kv, kv.1 = k) (if c then [(k0, s)] else [])).*2
   == if c && bool_decide (k0 = k) then s else 0)%Q.
Proof.
  destruct c; [|reflexivity]. rewrite filter_cons. simpl.
  case_bool_decide; destruct (decide (k0 = k)); try done;
    unfold SUM; simpl; ring.
Qed.

(** The sum of one group of the self-join, for one row of each copy of
    the blocking keys. *)
Lemma pairs_join_inner a b (k1 k2 : record_id * token) (tw : list (token * Q)) :
  String.ltb a b = true →
  (SUM (filter (λ kv, kv.1 = (a, b))
          (tw ≫= (λ w,
             if bool_decide (k1.2 = k2.2) && bool_decide (k1.2 = w.1)
                && String.ltb k1.1 k2.1
             then [(k1.1, k2.1, w.2)] else []))).*2
   == if decide (k2 = (b, k1.2))
      then (if decide (k1.1 = a) then weight_of tw k1.2 else 0)
      else 0)%Q.
Proof.
  intros Hab. rewrite SUM_filter_bind.
  destruct k1 as [r1 t1], k2 as [r2 t2]. simpl.
  destruct (decide ((r2, t2) = (b, t1))) as [[= -> ->]|Hk2];
    [destruct (decide (r1 = a)) as [->|Hr1]|].
  - unfold weight_of. rewrite <- SUM_fmap_filter.
    apply SUM_fmap_ext. intros [t s] _. rewrite SUM_filter_if. simpl.
    rewrite Hab, !bool_decide_eq_true_2 by done. simpl.
    destruct (decide (t = t1)) as [->|Hne].
    + rewrite !bool_decide_eq_true_2 by done. reflexivity.
    + rewrite (bool_decide_eq_false_2 (t1 = t)) by congruence. reflexivity.
  - rewrite <- (SUM_zeros tw). apply SUM_fmap_ext. intros [t s] _.
    rewrite SUM_filter_if. simpl.
    rewrite (bool_decide_eq_false_2 ((r1, b) = (a, b)))
      by (intros [= ?]; by subst).
    by rewrite andb_false_r.
  - rewrite <- (SUM_zeros tw). apply SUM_fmap_ext. intros [t s] _.
    rewrite SUM_filter_if. simpl.
    destruct (bool_decide (t1 = t2)) eqn:E1; [|done].
    apply bool_decide_eq_true in E1 as <-.
    rewrite (bool_decide_eq_false_2 ((r1, r2) = (a, b)))
      by (intros [= ? ?]; by subst).
    by rewrite andb_false_r.
Qed.

Lemma shared_tokens_sum (W : token → Q) (bk' bk : list (record_id * token))
    (a b : record_id) :
  (SUM (W <$> filter (λ t, (b, t) ∈ bk) (filter (λ k, k.1 = a) bk').*2)
   == SUM ((λ k : record_id * token,
              if decide ((b, k.2) ∈ bk)
              then (if decide (k.1 = a) then W k.2 else 0) else 0) <$> bk'))%Q.
Proof.
  induction bk' as [|[r t] bk' IH]; [reflexivity|].
  rewrite fmap_cons, SUM_cons, <- IH, filter_cons. cbn [fst snd].
  destruct (decide (r = a)) as [->|Hr].
  - rewrite fmap_cons, filter_cons. cbn [fst snd].
    destruct (decide ((b, t) ∈ bk)); [rewrite fmap_cons, SUM_cons|]; ring.
  - destruct (decide ((b, t) ∈ bk)); ring.
Qed.

(** The score of a group of the self-join is the sum of the weights of
    the shared tokens. *)
Lemma pairs_join_score bk tw a b :
  NoDup bk → String.ltb a b = true →
  (SUM (filter (λ kv, kv.1 = (a, b)) (pairs_join bk tw)).*2
   == SUM (weight_of tw <$> shared_tokens bk a b))%Q.
Proof.
  intros Hbk Hab. unfold pairs_join, shared_tokens.
  rewrite SUM_filter_bind, shared_tokens_sum.
  apply SUM_fmap_ext. intros k1 _.
  rewrite SUM_filter_bind.
  rewrite (SUM_fmap_ext _ _ bk (λ k2 _, pairs_join_inner a b k1 k2 tw Hab)).
  apply SUM_single, Hbk.
Qed.

Lemma ltb_irrefl a : String.ltb a a = false.
Proof.
  unfold String.ltb. destruct (String.compare a a) eqn:E; try done.
  pose proof (String.compare_antisym a a) as H. rewrite E in H. done.
Qed.

Lemma ltb_asym a b : String.ltb a b = true → String.ltb b a = false.
Proof.
  unfold String.ltb. rewrite (String.compare_antisym a b).
  by destruct (String.compare b a).
Qed.

(** C8: in the candidate pairs that the self-join builds from a table of
    blocking keys and its weight table (step 1 and step 3 alike), no two
    rows have the same pair of records, and every row (a, b, score) has
    a < b strictly, has no mirror row (b, a, _), and its score is the sum
    over the tokens that a and b share of their weights in the weight
    table. *)
Theorem candidate_pairs_canonical (LN : Q → Q) (min_len : Z)
    (stop : list string) (norm : list (record_id * string))
    (a b : record_id) (s : Q) :
  let bk := blocking_keys_query min_len stop norm in
  let tw := weights_query LN bk in
  (a, b, s) ∈ candidate_pairs_query bk tw →
  NoDup (candidate_pairs_query bk tw).*1 ∧
  String.ltb a b = true ∧
  a ≠ b ∧
  (∀ s', (b, a, s') ∉ candidate_pairs_query bk tw) ∧
  (s == SUM (weight_of tw <$> shared_tokens bk a b))%Q.
Proof.
  intros bk tw Hin.
  assert (∀ x y z, (x, y, z) ∈ candidate_pairs_query bk tw → String.ltb x y = true)
    as Hlt.
  { intros x y z [Hk _]%elem_of_group_sum.
    apply list_elem_of_fmap in Hk as [[[x' y'] z'] [[= -> ->] Hj]].
    by apply elem_of_pairs_join in Hj as (_ & _ & _ & _ & ?). }
  pose proof (Hlt _ _ _ Hin) as Hab.
  split; [apply group_sum_NoDup|]. split; [done|]. split; [|split].
  - intros ->. by rewrite ltb_irrefl in Hab.
  - intros s' Hba%Hlt. by rewrite (ltb_asym _ _ Hab) in Hba.
  - apply elem_of_group_sum in Hin as [_ ->].
    apply pairs_join_score; [apply blocking_keys_NoDup|done].
Qed.

Lemma candidate_pairs_canonical_witness :
  NoDup (candidate_pairs_query
           (blocking_keys_query 2 [] three_texts)
           (weights_query (λ q, q) (blocking_keys_query 2 [] three_texts))).*1 ∧
  String.ltb "t1" "t2" = true ∧
  "t1" ≠ "t2" ∧
  (∀ s', ("t2", "t1", s') ∉
         candidate_pairs_query
           (blocking_keys_query 2 [] three_texts)
           (weights_query (λ q, q) (blocking_keys_query 2 [] three_texts))) ∧
  (ROUND 0 4 + (ROUND 1 4 + 0)
   == SUM (weight_of
             (weights_query (λ q, q) (blocking_keys_query 2 [] three_texts))
           <$> shared_tokens (blocking_keys_query 2 [] three_texts) "t1" "t2"))%Q.
Proof.
  apply (candidate_pairs_canonical (λ q, q) 2 [] three_texts "t1" "t2").
  vm_compute. apply list_elem_of_here.
Defined.

(* ================================================================== *)
(** * Inference *)
(* ================================================================== *)

Lemma elem_of_candidates_join nrt bk tw pt q r c s :
  (q, r, c, s) ∈ candidates_join nrt bk tw pt ↔
  ∃ t row, (q, t) ∈ nrt ∧ (r, t) ∈ bk ∧ (t, s) ∈ tw ∧
           (row, Some c) ∈ pt ∧ row_id row = r.
Proof.
  unfold candidates_join. rewrite list_elem_of_bind. split.
  - intros [[q' t1] [H1 Hn]].
    apply list_elem_of_bind in H1 as [[r' t2] [H2 Hk]].
    apply list_elem_of_bind in H2 as [[t3 s'] [H3 Hw]].
    apply list_elem_of_bind in H3 as [[row oc] [H4 Hp]].
    simpl in H4. destruct oc as [c'|]; [|by apply not_elem_of_nil in H4].
    destruct (bool_decide (t1 = t2) && bool_decide (t1 = t3)
              && bool_decide (r' = row_id row)) eqn:E;
      [|by apply not_elem_of_nil in H4].
    apply list_elem_of_singleton in H4 as [= -> -> -> ->].
    apply andb_true_iff in E as [E E3].
    apply andb_true_iff in E as [E1 E2].
    apply bool_decide_eq_true in E1 as <-, E2 as <-, E3 as ->.
    exists t1, row. done.
  - intros (t & row & Hn & Hk & Hw & Hp & <-).
    exists (q, t). split; [|done].
    apply list_elem_of_bind. exists (row_id row, t). split; [|done].
    apply list_elem_of_bind. exists (t, s). split; [|done].
    apply list_elem_of_bind. exists (row, Some c). split; [|done].
    simpl. rewrite !bool_decide_eq_true_2 by done. simpl. left.
Qed.




Lemma filter_all {A} (P : A → Prop) `{∀ x, Decision (P x)} (l : list A) :
  (∀ x, x ∈ l → P x) → filter P l = l.
Proof.
  induction l as [|x l IH]; intros Hl; [done|].
  rewrite filter_cons, decide_True by (apply Hl; left).
  f_equal. apply IH. intros y Hy. apply Hl. by right.
Qed.



Lemma partition_query_id cands q c :
  c ∈ order_by score_desc (filter (λ c, query_id c = q) cands) →
  c ∈ cands ∧ query_id c = q.
Proof.
  rewrite elem_of_order_by, list_elem_of_filter. tauto.
Qed.



(** The head of a sorted partition is below every row of it. *)
Lemma head_order_by {A} (le : A → A → bool) (l : list A) (h : A) :
  (∀ x y, le x y = true ∨ le y x = true) →
  (∀ x y z, le x y = true → le y z = true → le x z = true) →
  head (order_by le l) = Some h → ∀ x, x ∈ l → le h x = true.
Proof.
  intros Htotal Htrans. revert h.
  induction l as [|a l IH]; intros h Hh x Hx; [by apply not_elem_of_nil in Hx|].
  simpl in Hh. destruct (order_by le l) as [|y s] eqn:E.
  - destruct l as [|b l].
    + injection Hh as <-. apply list_elem_of_singleton in Hx as ->.
      by destruct (Htotal a a).
    + pose proof (order_by_Permutation le (b :: l)) as Hp. rewrite E in Hp.
      by apply Permutation_nil_cons in Hp.
  - simpl in Hh. specialize (IH y eq_refl).
    destruct (le a y) eqn:Hay; injection Hh as <-.
    + apply elem_of_cons in Hx as [->|Hx].
      * by destruct (Htotal a a).
      * eauto.
    + apply elem_of_cons in Hx as [->|Hx]; [|eauto].
      destruct (Htotal a y); congruence.
Qed.

Lemma score_desc_total a b : score_desc a b = true ∨ score_desc b a = true.
Proof.
  unfold score_desc. rewrite !Qle_bool_iff.
  destruct (Qlt_le_dec (cand_score a) (cand_score b)) as [H|H]; [|auto].
  right. by apply Qlt_le_weak.
Qed.

Lemma score_desc_trans a b c :
  score_desc a b = true → score_desc b c = true → score_desc a c = true.
Proof.
  unfold score_desc. rewrite !Qle_bool_iff. intros H1 H2.
  by apply Qle_trans with (cand_score b).
Qed.














(* ================================================================== *)
(** * Ranking and ties *)
(* ================================================================== *)




(* ================================================================== *)
(** * Table names *)
(* ================================================================== *)

Lemma string_length_app p s :
  String.length (p +:+ s) = (String.length p + String.length s)%nat.
Proof. induction p as [|c p IH]; simpl; [done|]. by rewrite IH. Qed.

Lemma string_drop_app p s : string_drop (String.length p) (p +:+ s) = s.
Proof. induction p as [|c p IH]; simpl; [by destruct s|done]. Qed.

Lemma ends_with_app p s : ends_with s (p +:+ s) = true.
Proof.
  unfold ends_with. rewrite string_length_app.
  replace (String.length p + String.length s - String.length s)%nat
    with (String.length p) by lia.
  rewrite string_drop_app. apply String.eqb_refl.
Qed.

Lemma string_app_inv_head p s1 s2 : p +:+ s1 = p +:+ s2 → s1 = s2.
Proof. induction p as [|c p IH]; simpl; [done|]. intros [= ?]. auto. Qed.

(** A name made of a prefix and a suffix differs from every name that
    does not end with the suffix. *)
Lemma app_ne_not_suffix p s name :
  ends_with s name = false → p +:+ s ≠ name.
Proof. intros Hends <-. by rewrite ends_with_app in Hends. Qed.

(** The table names of a configuration made by the engine. *)
Lemma SpecificAffinity_init_names db text id source threshold stop min_len :
  let config := SpecificAffinity_init db text id source threshold stop min_len in
  let prefix := replace_dot source in
  source_table config = source ∧
  prime_table config = prefix +:+ "_prime" ∧
  blocking_keys_table config = prefix +:+ "_blocking_keys" ∧
  weights_table config = prefix +:+ "_weights" ∧
  clusters_table config = prefix +:+ "_clusters" ∧
  inferred_matches_table config = prefix +:+ "_inferred_matches" ∧
  unassigned_table config = prefix +:+ "_unassigned".
Proof.
  unfold SpecificAffinity_init.
  destruct stop as [words|]; [destruct (bool_decide (words = ∅))|]; done.
Qed.

(** The tables of a build are none of the tables that step 2 creates,
    under a configuration made by the engine. *)
Lemma build_tables_not_written db text id source threshold stop min_len :
  let config := SpecificAffinity_init db text id source threshold stop min_len in
  (weights_table config ∉ step_2_tables config) ∧
  (blocking_keys_table config ∉ step_2_tables config) ∧
  (clusters_table config ∉ step_2_tables config) ∧
  (prime_table config ∉ step_2_tables config).
Proof.
  intros config.
  destruct (SpecificAffinity_init_names db text id source threshold stop min_len)
    as (_ & Hp & Hb & Hw & Hc & Hi & _).
  fold config in Hp, Hb, Hw, Hc, Hi. unfold step_2_tables.
  rewrite Hp, Hb, Hw, Hc, Hi.
  repeat split; rewrite !not_elem_of_cons;
    repeat split;
    first [ apply not_elem_of_nil
          | by apply app_ne_not_suffix
          | by intros ?%string_app_inv_head ].
Qed.

(* ================================================================== *)
(** * The tables a command writes *)
(* ================================================================== *)

Lemma writes_only_ret {A} names (a : A) : writes_only names (ret a).
Proof. by intros db name _. Qed.

Lemma writes_only_raise {A} names e : writes_only names (@raise A e).
Proof. by intros db name _. Qed.

Lemma writes_only_read_table names name : writes_only names (read_table name).
Proof.
  intros db n _. unfold read_table. by destruct (db !! name).
Qed.

Lemma writes_only_bind {A B} names (c : M A) (k : A → M B) :
  writes_only names c → (∀ a, writes_only names (k a)) →
  writes_only names (bind c k).
Proof.
  intros Hc Hk db n Hn. unfold bind. specialize (Hc db n Hn).
  destruct (c db) as [[a|e] db']; simpl in *; [|done].
  by rewrite (Hk a db' n Hn).
Qed.

Lemma writes_only_read_as {A} names (proj : table → option A) name :
  writes_only names (read_as proj name).
Proof.
  unfold read_as. apply writes_only_bind; [apply writes_only_read_table|].
  intros t. destruct (proj t); [apply writes_only_ret|apply writes_only_raise].
Qed.

Lemma writes_only_create names name t :
  name ∈ names → writes_only names (create_or_replace name t).
Proof.
  intros Hin db n Hn. unfold create_or_replace. simpl.
  apply lookup_insert_ne. by intros ->.
Qed.

(** Proves that a command writes only the listed tables, statement by
    statement. *)
Ltac solve_writes :=
  repeat first
    [ apply writes_only_ret
    | apply writes_only_raise
    | apply writes_only_read_as
    | apply writes_only_read_table
    | apply writes_only_create; unfold step_2_tables;
      rewrite !elem_of_cons; tauto
    | apply writes_only_bind; [|intros ?] ].

Lemma run_step_2_writes config name :
  writes_only (step_2_tables config) (run_step_2 config name).
Proof.
  unfold run_step_2, tokenize_new_records, find_candidates, rank_matches,
    create_inferred_matches, create_inference_results, get_inference_stats.
  solve_writes.
Qed.

(** C7: step 2, run on any catalogue under a configuration made by the
    engine, whether it completes or raises, leaves the weight table, the
    blocking keys, the clusters table and the prime table as they were;
    the only tables it creates or replaces are its five result tables
    (new_record_tokens, inference_candidates, ranked_matches, the inferred
    matches and inference_results). *)
Theorem infer_leaves_build_tables db_file text id source threshold stop
    min_len new_records_table (db : gmap string table) :
  let config :=
    SpecificAffinity_init db_file text id source threshold stop min_len in
  let db' := (run_step_2 config new_records_table db).2 in
  db' !! weights_table config = db !! weights_table config ∧
  db' !! blocking_keys_table config = db !! blocking_keys_table config ∧
  db' !! clusters_table config = db !! clusters_table config ∧
  db' !! prime_table config = db !! prime_table config ∧
  ∀ name, name ∉ step_2_tables config → db' !! name = db !! name.
Proof.
  intros config db'.
  destruct (build_tables_not_written db_file text id source threshold stop min_len)
    as (Hw & Hb & Hc & Hp).
  pose proof (run_step_2_writes config new_records_table db) as Hframe.
  split; [by apply Hframe|]. split; [by apply Hframe|].
  split; [by apply Hframe|]. split; [by apply Hframe|]. exact Hframe.
Qed.

Lemma infer_leaves_build_tables_witness :
  (run_step_2 infer_config "new_tx" infer_db).2 !! "tx_weights"
  = Some (WeightsT infer_weights).
Proof.
  destruct (infer_leaves_build_tables "db" "memo" "id" "tx" (1 # 2) None 2
              "new_tx" infer_db) as (_ & _ & _ & _ & Hframe).
  transitivity (infer_db !! "tx_weights"); [|by vm_compute].
  apply (Hframe "tx_weights").
  apply (bool_decide_unpack _). vm_compute. exact I.
Defined.

(* ================================================================== *)
(** * Configurations *)
(* ================================================================== *)


(** The candidate pairs that step 1 stores are those of its blocking
    keys and weight table. *)
Lemma built_db_candidate_pairs LN config src db :
  well_named_1 config →
  built_db LN config src db !! "candidate_pairs"
  = Some (PairsT (candidate_pairs_query (build_keys config src)
                    (weights_query LN (build_keys config src)))).
Proof.
  intros Hnames. unfold well_named_1, step_1_names in Hnames.
  split_names Hnames. unfold built_db. solve_lookup.
Qed.







(* ================================================================== *)
(** * Step 3 on empty inputs *)
(* ================================================================== *)










Lemma update_prime_table_run config db nc prime :
  db !! "new_clusters" = Some (ClustersT nc) → nc ≠ [] →
  db !! prime_table config = Some (PrimeT prime) →
  update_prime_table config db
  = (Return (COUNT nc),
     <[prime_table config := PrimeT (update_prime_query prime nc)]> db).
Proof.
  intros H1 Hne H2. unfold update_prime_table.
  run_with read_table_run. cbv beta zeta.
  assert ((0 <? row_count (ClustersT nc))%Z = true) as ->.
  { apply Z.ltb_lt. destruct nc; [done|]. unfold row_count, COUNT. simpl. lia. }
  erewrite (bind_run (bind _ _)); [reflexivity|].
  run_with (read_as_run as_clusters).
  by run_with (read_as_run as_prime).
Qed.











(* ================================================================== *)
(** * New cluster ids *)
(* ================================================================== *)

(** [update_prime_table] adds no row to the prime table and removes
    none: the records of the prime table are the same before and after. *)
Lemma update_prime_query_records prime nc :
  (update_prime_query prime nc).*1 = prime.*1.
Proof.
  unfold update_prime_query. rewrite <- list_fmap_compose.
  induction prime as [|r prime IH]; [done|].
  rewrite !fmap_cons, IH. f_equal. simpl.
  by destruct (filter _ nc).
Qed.

(** A row of the prime table that no new cluster names keeps its
    cluster. *)
Lemma update_prime_query_other prime nc r c :
  (r, c) ∈ prime → row_id r ∉ nc.*1 → (r, c) ∈ update_prime_query prime nc.
Proof.
  intros Hin Hno. unfold update_prime_query.
  apply list_elem_of_fmap. exists (r, c). split; [|done]. simpl.
  rewrite filter_none; [done|].
  intros [r' c'] Hr Heq. simpl in Heq. subst r'.
  apply Hno. by apply (list_elem_of_fmap_2 fst) in Hr.
Qed.

(** Every new cluster id is [NEW_] followed by a row number between 1
    and the number of rows of [unassigned_clusters], whatever the prime
    table holds. *)
Lemma new_cluster_ids_numbered uc r c :
  (r, c) ∈ new_clusters_query uc →
  ∃ n : Z, c = "NEW_" +:+ pretty n ∧ (1 ≤ n ≤ COUNT uc)%Z.
Proof.
  unfold new_clusters_query. rewrite list_elem_of_bind.
  intros [[r' old] [Hin _]].
  apply list_elem_of_bind in Hin as [[old' new] [Hin Hcm]].
  destruct (bool_decide _); [|by apply not_elem_of_nil in Hin].
  apply list_elem_of_singleton in Hin as [= -> ->].
  unfold cluster_mapping in Hcm.
  apply elem_of_remove_dups, list_elem_of_fmap in Hcm as [[x n] [[= -> ->] Hn]].
  unfold row_numbers in Hn.
  apply elem_of_lookup_imap_1 in Hn as (i & y & [= -> ->] & Hi).
  exists (Z.of_nat (S i)). split; [done|].
  apply lookup_lt_Some in Hi.
  rewrite (Permutation_length (order_by_Permutation _ uc)) in Hi.
  unfold COUNT. lia.
Qed.


(* ================================================================== *)
(** * Normalisation and tokens, for all source tables *)
(* ================================================================== *)

Lemma rtrim_empty s : rtrim s = EmptyString ↔ all_spaces s = true.
Proof.
  unfold all_spaces. induction s as [|c s IH]; simpl; [done|].
  destruct (rtrim s) as [|c' r].
  - destruct (Ascii.eqb c " "); simpl; [tauto|]. split; done.
  - split; [done|]. intros [_ H]%andb_true_iff. by apply IH in H.
Qed.

Lemma ltrim_all_spaces s : all_spaces (ltrim s) = all_spaces s.
Proof.
  unfold all_spaces. induction s as [|c s IH]; simpl; [done|].
  destruct (Ascii.eqb c " ") eqn:E; simpl; [done|]. by rewrite E.
Qed.

(** A text is blank for [LENGTH(TRIM(text)) > 0] exactly when it is made
    of spaces only. *)
Lemma TRIM_blank s : (0 <? LENGTH (TRIM s))%Z = negb (all_spaces s).
Proof.
  unfold TRIM. rewrite <- ltrim_all_spaces.
  destruct (all_spaces (ltrim s)) eqn:E; simpl.
  - apply rtrim_empty in E. by rewrite E.
  - apply Z.ltb_lt. unfold LENGTH.
    destruct (rtrim (ltrim s)) eqn:E'; [|simpl; lia].
    apply rtrim_empty in E'. congruence.
Qed.

Lemma lower_char_space c :
  Ascii.eqb (lower_char c) " " = Ascii.eqb c " ".
Proof. by destruct c as [[] [] [] [] [] [] [] []]. Qed.

Lemma lower_char_idem c : lower_char (lower_char c) = lower_char c.
Proof.
  unfold lower_char at 1. by rewrite lower_char_not_upper.
Qed.

Lemma LOWER_idem s : LOWER (LOWER s) = LOWER s.
Proof.
  induction s as [|c s IH]; simpl; [done|]. by rewrite IH, lower_char_idem.
Qed.

Lemma all_spaces_LOWER s : all_spaces (LOWER s) = all_spaces s.
Proof.
  unfold all_spaces. induction s as [|c s IH]; simpl; [done|].
  by rewrite IH, lower_char_space.
Qed.

Lemma all_spaces_normalized s :
  all_spaces s = true → all_spaces (regexp_replace_non_alnum (LOWER s)) = true.
Proof.
  unfold all_spaces. induction s as [|c s IH]; simpl; [done|].
  intros [Hc Hs]%andb_true_iff. rewrite (IH Hs), andb_true_r.
  apply Ascii.eqb_eq in Hc as ->. reflexivity.
Qed.

Lemma split_all_spaces s t :
  all_spaces s = true → t ∈ string_split " " s → t = EmptyString.
Proof.
  unfold all_spaces. revert t. induction s as [|c s IH]; simpl; intros t.
  - intros _ Ht. by apply list_elem_of_singleton in Ht.
  - intros [Hc Hs]%andb_true_iff. rewrite Hc.
    intros [->|Ht]%elem_of_cons; [done|]. by apply IH.
Qed.



(** X2: tokenisation does not see letter case: the blocking keys of step
    1 are the same when every source text is replaced by its lower-case
    form. *)
Theorem build_keys_case_insensitive config src :
  build_keys config (lower_texts src) = build_keys config src.
Proof.
  unfold build_keys. f_equal.
  unfold normalized_text_query, lower_texts.
  induction src as [|[r ot] src IH]; [done|].
  rewrite fmap_cons. cbn [omap list_omap row_text row_id].
  destruct ot as [text|]; cbn [fmap option_fmap option_map]; [|exact IH].
  rewrite !TRIM_blank, all_spaces_LOWER, LOWER_idem.
  destruct (all_spaces text); cbn [negb]; [exact IH|].
  rewrite !fmap_cons. f_equal. exact IH.
Qed.

(** X3: [create_unassigned_blocking_keys] has no filter on blank texts,
    unlike [tokenize_new_records]; when the minimum token length is at
    least 1 the two give the same rows for the unmatched records, since a
    blank text only gives empty tokens. *)
Theorem cleanup_keys_agree config stop res :
  (1 ≤ min_token_length config)%Z →
  cleanup_keys config stop res
  = new_record_tokens_query (min_token_length config) stop
      (res_record <$> unassigned_query res).
Proof.
  intros Hmin. unfold cleanup_keys, new_record_tokens_query, blocking_keys_query.
  f_equal. generalize (res_record <$> unassigned_query res). intros rows.
  unfold tokenized, unassigned_normalized, normalized_text_query.
  induction rows as [|[r ot] rows IH]; [done|].
  cbn [omap list_omap row_text row_id].
  destruct ot as [text|]; cbn [fmap option_fmap option_map]; [|exact IH].
  rewrite TRIM_blank.
  destruct (all_spaces text) eqn:E; cbn [negb].
  - rewrite bind_cons, filter_app, filter_none; [exact IH|].
    intros [r' t] [t' [[= -> ->] Ht]]%list_elem_of_fmap [Hlen _].
    apply split_all_spaces in Ht as ->; [|by apply all_spaces_normalized].
    unfold LENGTH in Hlen. simpl in Hlen. lia.
  - rewrite fmap_cons, !bind_cons, !filter_app. f_equal. exact IH.
Qed.

Lemma cleanup_keys_agree_witness :
  cleanup_keys infer_config [] unmatched_results
  = new_record_tokens_query 2 []
      (res_record <$> unassigned_query unmatched_results).
Proof.
  apply (cleanup_keys_agree infer_config [] unmatched_results).
  vm_compute. discriminate.
Defined.

(* ================================================================== *)
(** * The weight table, for all blocking keys *)
(* ================================================================== *)

Lemma elem_of_log_weights LN bk t lw :
  (t, lw) ∈ log_weights LN (weight_calc (token_counts bk)) →
  t ≠ EmptyString ∧ (∃ r, (r, t) ∈ bk) ∧
  ∃ a raw,
    raw = (inject_Z (token_freq bk t)
           / inject_Z (COUNT (remove_dups bk.*1)))%Q ∧
    ¬ (raw == 0)%Q ∧ (0 < a / raw)%Q ∧ lw = LN (a / raw)%Q ∧
    AVG (raw_frequency <$> token_counts bk) = Some a.
Proof.
  unfold log_weights. rewrite list_elem_of_omap.
  intros [[t' ow] [Hin Hrow]]. simpl in Hrow.
  destruct ow as [w|]; [|done].
  destruct (bool_decide (t' ≠ EmptyString)) eqn:Ht; [|done].
  destruct (Qle_bool w 0) eqn:Hw; [done|]. simpl in Hrow.
  injection Hrow as -> <-. apply bool_decide_eq_true in Ht.
  unfold weight_calc in Hin.
  apply list_elem_of_fmap in Hin as [[[t0 f] n] [[= -> Hw'] Hin]].
  unfold token_counts in Hin.
  apply list_elem_of_fmap in Hin as [t1 [[= -> -> ->] Hin]].
  apply elem_of_remove_dups, list_elem_of_fmap in Hin as [[r t2] [-> Hin]].
  split; [done|]. split; [by exists r|].
  destruct (AVG _) as [a|] eqn:Ha; [|done].
  unfold NULLIF0, raw_frequency in Hw'. cbn [fst snd] in Hw'.
  destruct (Qeq_bool _ 0) eqn:Hz; [done|]. injection Hw' as ->.
  exists a. eexists. split; [reflexivity|].
  split; [by apply Qeq_bool_neq|]. split; [|done].
  apply Qnot_le_lt. intros Hle. apply Qle_bool_iff in Hle.
  unfold token_freq in *. cbn [snd] in *. congruence.
Qed.

(** X4: the weight table has one row per token at most; every weight lies
    between 0 and 1 and is a multiple of 1/10000; every token of the table
    is a non-empty token of the blocking keys. *)
Theorem weight_table_sound LN bk :
  NoDup (weights_query LN bk).*1 ∧
  ∀ t w, (t, w) ∈ weights_query LN bk →
    (0 <= w <= 1)%Q ∧ (∃ n : Z, w = Qmake n 10000) ∧
    t ≠ EmptyString ∧ ∃ r, (r, t) ∈ bk.
Proof.
  split; [apply weights_query_NoDup|].
  intros t w Hin.
  apply weights_query_bounds in Hin as (lw & lo & hi & Hlw & _ & _ & _ & Hw & Hb).
  split; [done|]. split.
  - rewrite Hw. unfold ROUND. eexists. reflexivity.
  - apply elem_of_log_weights in Hlw as (? & ? & _). done.
Qed.

Lemma foldr_Qmin2_in x xs : foldr Qmin2 x xs ∈ x :: xs.
Proof.
  induction xs as [|a xs IH]; simpl; [left|].
  unfold Qmin2 at 1. destruct (Qle_bool a _); [right; left|].
  apply elem_of_cons in IH as [->|IH]; [left|do 2 right; done].
Qed.

Lemma foldr_Qmax2_in x xs : foldr Qmax2 x xs ∈ x :: xs.
Proof.
  induction xs as [|a xs IH]; simpl; [left|].
  unfold Qmax2 at 1. destruct (Qle_bool a _); [|right; left].
  apply elem_of_cons in IH as [->|IH]; [left|do 2 right; done].
Qed.

Lemma ROUND_Qeq x y d : (x == y)%Q → ROUND x d = ROUND y d.
Proof.
  intros Hxy. unfold ROUND.
  assert (Qle_bool 0 x = Qle_bool 0 y) as ->.
  { destruct (Qle_bool 0 y) eqn:E.
    - apply Qle_bool_iff. apply Qle_bool_iff in E. by rewrite Hxy.
    - destruct (Qle_bool 0 x) eqn:E'; [|done].
      apply Qle_bool_iff in E'. rewrite Hxy in E'.
      apply Qle_bool_iff in E'. congruence. }
  assert (Qfloor (x * inject_Z (10 ^ Z.of_nat d) + (1 # 2))
          = Qfloor (y * inject_Z (10 ^ Z.of_nat d) + (1 # 2))) as ->.
  { apply Qfloor_comp. by rewrite Hxy. }
  assert (Qfloor (- (x * inject_Z (10 ^ Z.of_nat d)) + (1 # 2))
          = Qfloor (- (y * inject_Z (10 ^ Z.of_nat d)) + (1 # 2))) as ->.
  { apply Qfloor_comp. by rewrite Hxy. }
  done.
Qed.

(** X5: the min-max normalisation attains both ends: a weight table that
    is not empty holds a token of weight 0 and a token of weight 1. *)
Theorem weight_table_extremes LN bk :
  weights_query LN bk ≠ [] →
  (∃ t w, (t, w) ∈ weights_query LN bk ∧ (w == 0)%Q) ∧
  (∃ t w, (t, w) ∈ weights_query LN bk ∧ (w == 1)%Q).
Proof.
  unfold weights_query, weights_select, normalized.
  set (rows := log_weights LN (weight_calc (token_counts bk))).
  intros Hne.
  destruct (MIN_dbl rows.*2) as [lo|] eqn:Hlo; [|done].
  destruct (MAX_dbl rows.*2) as [hi|] eqn:Hhi; [|done].
  destruct (NULLIF0 (hi - lo)) as [d|] eqn:Hd.
  2:{ exfalso. apply Hne. rewrite filter_none; [done|].
      intros x [tw [-> _]]%list_elem_of_fmap. simpl. auto. }
  unfold NULLIF0 in Hd. destruct (Qeq_bool (hi - lo) 0) eqn:Hz; [done|].
  injection Hd as <-. apply Qeq_bool_neq in Hz.
  assert (∀ t lw, (t, lw) ∈ rows →
            (t, ROUND ((lw - lo) / (hi - lo)) 4) ∈
              (λ tw : token * option Q, (tw.1, ROUND (default 0%Q tw.2) 4)) <$>
              filter (λ tw : token * option Q, tw.2 ≠ None)
                ((λ tw : token * Q, (tw.1, Some ((tw.2 - lo) / (hi - lo))%Q))
                   <$> rows)) as Hrow.
  { intros t lw Hin. apply list_elem_of_fmap.
    exists (t, Some ((lw - lo) / (hi - lo))%Q). split; [done|].
    apply list_elem_of_filter. split; [done|].
    apply list_elem_of_fmap. by exists (t, lw). }
  destruct (rows.*2) as [|x xs] eqn:Hrows; [done|].
  injection Hlo as Hlo. injection Hhi as Hhi.
  split.
  - pose proof (foldr_Qmin2_in x xs) as Hin. rewrite Hlo, <- Hrows in Hin.
    apply list_elem_of_fmap in Hin as [[t lw] [-> Hin]].
    exists t, (ROUND ((lw - lw) / (hi - lw)) 4). split; [by apply Hrow|].
    rewrite (ROUND_Qeq _ 0) by (unfold Qdiv; ring). reflexivity.
  - pose proof (foldr_Qmax2_in x xs) as Hin. rewrite Hhi, <- Hrows in Hin.
    apply list_elem_of_fmap in Hin as [[t lw] [-> Hin]].
    exists t, (ROUND ((lw - lo) / (lw - lo)) 4). split; [by apply Hrow|].
    rewrite (ROUND_Qeq _ 1) by (by apply Qmult_inv_r). reflexivity.
Qed.

Lemma weight_table_extremes_witness :
  (∃ t w, (t, w) ∈ weights_query (λ x, x) freq_keys ∧ (w == 0)%Q) ∧
  (∃ t w, (t, w) ∈ weights_query (λ x, x) freq_keys ∧ (w == 1)%Q).
Proof.
  apply (weight_table_extremes (λ x, x) freq_keys).
  vm_compute. discriminate.
Defined.

Lemma weight_table_sound_witness :
  ∃ w, ("alpha", w) ∈ weights_query (λ x, x) freq_keys ∧ (0 <= w <= 1)%Q.
Proof.
  exists (10000 # 10000)%Q.
  assert (("alpha", (10000 # 10000)%Q) ∈ weights_query (λ x, x) freq_keys) as H
    by (vm_compute; left).
  split; [exact H|].
  by destruct (proj2 (weight_table_sound (λ x, x) freq_keys) _ _ H) as (? & _).
Defined.

Lemma ROUND_mono x y d : (0 <= x)%Q → (x <= y)%Q → (ROUND x d <= ROUND y d)%Q.
Proof.
  intros H0 Hxy. unfold ROUND.
  rewrite (proj2 (Qle_bool_iff 0 x) H0).
  rewrite (proj2 (Qle_bool_iff 0 y) (Qle_trans _ _ _ H0 Hxy)).
  set (p := (10 ^ Z.of_nat d)%Z).
  assert (0 < p)%Z as Hp by (apply Z.pow_pos_nonneg; lia).
  assert (Qfloor (x * inject_Z p + (1 # 2)) ≤ Qfloor (y * inject_Z p + (1 # 2)))%Z
    as Hle.
  { apply Qfloor_resp_le, Qplus_le_l, Qmult_le_compat_r; [done|].
    change 0%Q with (inject_Z 0). rewrite <- Zle_Qle. lia. }
  unfold Qle. cbn [Qnum Qden]. apply Z.mul_le_mono_nonneg_r; [lia|done].
Qed.

(** X6: when [LN] is non-decreasing on the positive numbers, a token that
    occurs in more records never has a greater weight: of two tokens of
    the weight table, the one with the greater or equal number of blocking
    key rows has the smaller or equal weight. *)
Theorem weights_decrease_with_frequency LN bk t1 w1 t2 w2 :
  (∀ x y, (0 < x)%Q → (x <= y)%Q → (LN x <= LN y)%Q) →
  (t1, w1) ∈ weights_query LN bk → (t2, w2) ∈ weights_query LN bk →
  (token_freq bk t1 ≤ token_freq bk t2)%Z →
  (w2 <= w1)%Q.
Proof.
  intros Hmono H1 H2 Hfreq.
  apply weights_query_bounds in H1
    as (lw1 & lo & hi & Hlw1 & Hlo & Hhi & Hne & -> & _).
  apply weights_query_bounds in H2
    as (lw2 & lo' & hi' & Hlw2 & Hlo' & Hhi' & _ & -> & _).
  rewrite Hlo in Hlo'. rewrite Hhi in Hhi'.
  injection Hlo' as <-. injection Hhi' as <-.
  assert (lw1 ∈ (log_weights LN (weight_calc (token_counts bk))).*2) as Hin1
    by (apply list_elem_of_fmap; by exists (t1, lw1)).
  assert (lw2 ∈ (log_weights LN (weight_calc (token_counts bk))).*2) as Hin2
    by (apply list_elem_of_fmap; by exists (t2, lw2)).
  pose proof (MIN_dbl_le _ _ _ Hlo Hin1) as Hlo1.
  pose proof (MAX_dbl_ge _ _ _ Hhi Hin1) as Hhi1.
  pose proof (MIN_dbl_le _ _ _ Hlo Hin2) as Hlo2.
  assert (0 < hi - lo)%Q as Hpos.
  { assert (lo <= hi)%Q as Hle by (by apply Qle_trans with lw1).
    apply Qle_lt_or_eq in Hle as [Hlt|Heq].
    - unfold Qminus. exact (proj1 (Qlt_minus_iff lo hi) Hlt).
    - exfalso. apply Hne. by symmetry. }
  apply elem_of_log_weights in Hlw1
    as (_ & _ & a & raw1 & Hraw1 & Hnz1 & Hw1 & -> & Ha).
  apply elem_of_log_weights in Hlw2
    as (_ & _ & a' & raw2 & Hraw2 & Hnz2 & Hw2 & -> & Ha').
  rewrite Ha in Ha'. injection Ha' as <-.
  set (T := COUNT (remove_dups bk.*1)) in *.
  assert (0 ≤ T)%Z as HT0 by (unfold T, COUNT; lia).
  assert (0 ≤ token_freq bk t1)%Z as Hf1 by (unfold token_freq, COUNT; lia).
  assert (0 < T)%Z as HT.
  { destruct (decide (T = 0%Z)) as [HT|]; [|lia]. exfalso. apply Hnz1.
    rewrite Hraw1, HT. unfold Qdiv. change (/ inject_Z 0)%Q with 0%Q. ring. }
  assert (0 < token_freq bk t1)%Z as Hf1'.
  { destruct (decide (token_freq bk t1 = 0%Z)) as [Hz|]; [|lia]. exfalso.
    apply Hnz1. rewrite Hraw1, Hz. unfold Qdiv. ring. }
  assert (0 < inject_Z T)%Q as HTq
    by (change 0%Q with (inject_Z 0); rewrite <- Zlt_Qlt; lia).
  assert (0 < raw1)%Q as Hr1.
  { rewrite Hraw1. apply Qlt_shift_div_l; [done|]. rewrite Qmult_0_l.
    change 0%Q with (inject_Z 0). rewrite <- Zlt_Qlt. lia. }
  assert (raw1 <= raw2)%Q as Hr12.
  { rewrite Hraw1, Hraw2. apply Qmult_le_compat_r.
    - rewrite <- Zle_Qle. lia.
    - apply Qinv_le_0_compat. by apply Qlt_le_weak. }
  assert (0 < raw2)%Q as Hr2 by (by apply Qlt_le_trans with raw1).
  assert (a / raw1 * raw1 == a)%Q as Ha1.
  { unfold Qdiv. rewrite <- Qmult_assoc, (Qmult_comm (/ raw1)), Qmult_inv_r.
    - ring.
    - intros Heq. rewrite Heq in Hr1. by apply Qlt_irrefl in Hr1. }
  assert (a / raw2 <= a / raw1)%Q as Hratio.
  { apply Qle_shift_div_r; [done|]. rewrite <- Ha1 at 1.
    rewrite !(Qmult_comm (a / raw1)). apply Qmult_le_compat_r; [done|].
    by apply Qlt_le_weak. }
  assert (LN (a / raw2) <= LN (a / raw1))%Q as HLN by (by apply Hmono).
  apply ROUND_mono.
  - apply Qle_shift_div_l; [done|]. rewrite Qmult_0_l.
    unfold Qminus. exact (proj1 (Qle_minus_iff lo _) Hlo2).
  - apply Qmult_le_compat_r.
    + unfold Qminus. by apply Qplus_le_l.
    + apply Qinv_le_0_compat. by apply Qlt_le_weak.
Qed.

Lemma weights_decrease_with_frequency_witness :
  ∃ w1 w2, ("alpha", w1) ∈ weights_query (λ x, x) freq_keys ∧
           ("beta", w2) ∈ weights_query (λ x, x) freq_keys ∧ (w2 <= w1)%Q.
Proof.
  exists (10000 # 10000)%Q, (0 # 10000)%Q.
  assert (("alpha", (10000 # 10000)%Q) ∈ weights_query (λ x, x) freq_keys) as H1
    by (vm_compute; left).
  assert (("beta", (0 # 10000)%Q) ∈ weights_query (λ x, x) freq_keys) as H2
    by (vm_compute; right; left).
  split; [exact H1|]. split; [exact H2|].
  apply (weights_decrease_with_frequency (λ x, x) freq_keys "alpha" _ "beta" _).
  - intros x y _ Hxy. exact Hxy.
  - exact H1.
  - exact H2.
  - vm_compute. discriminate.
Defined.

(* ================================================================== *)
(** * Threshold, clusters and prime table *)
(* ================================================================== *)














(* ================================================================== *)
(** * Consistency of the statistics *)
(* ================================================================== *)

Lemma length_filter_split {A} (P : A → Prop) `{∀ x, Decision (P x)} (l : list A) :
  (length (filter P l) + length (filter (λ x, ¬ P x) l) = length l)%nat.
Proof.
  induction l as [|x l IH]; [done|].
  rewrite !filter_cons. destruct (decide (P x)).
  - rewrite decide_False by tauto. simpl. lia.
  - rewrite decide_True by done. simpl. lia.
Qed.






Lemma py_round_percent x :
  (0 <= x)%Q → (x <= 100)%Q → (0 <= py_round x 2 <= 100)%Q.
Proof.
  intros H0 H1. unfold py_round.
  change (10 ^ Z.of_nat 2)%Z with 100%Z.
  set (scaled := (x * inject_Z 100 + (1 # 2))%Q).
  assert (0 ≤ Qfloor scaled)%Z as Hlo.
  { change 0%Z with (Qfloor 0). apply Qfloor_resp_le. unfold scaled.
    assert (0 <= x * inject_Z 100)%Q by (by apply Qmult_le_0_compat).
    apply Qle_trans with (x * inject_Z 100)%Q; [done|].
    rewrite <- (Qplus_0_r (x * inject_Z 100)) at 1. by apply Qplus_le_r. }
  assert (Qfloor scaled ≤ 10000)%Z as Hhi.
  { change 10000%Z with (Qfloor (100 * inject_Z 100 + (1 # 2))).
    apply Qfloor_resp_le, Qplus_le_l. by apply Qmult_le_compat_r. }
  set (n := Qfloor scaled) in *.
  destruct (Qeq_bool scaled (inject_Z n) && Z.odd n) eqn:E.
  - apply andb_true_iff in E as [_ Hodd].
    assert (n ≠ 0)%Z by (intros ->; done).
    unfold Qle. simpl. lia.
  - unfold Qle. simpl. lia.
Qed.

(** X11: the dictionary of [get_inference_stats] is consistent for every
    table of results: matched and unmatched add up to the total, the match
    rate lies between 0 and 100, and an empty table gives the rate 0 (no
    division by zero) and no average similarity. *)
Theorem inference_stats_consistent res :
  let s := inference_stats_query res in
  (inf_matched s + inf_unmatched s = inf_total_records s)%Z ∧
  (0 <= match_rate_pct s <= 100)%Q ∧
  (inf_total_records s = 0%Z →
     (match_rate_pct s == 0)%Q ∧ avg_similarity s = None).
Proof.
  cbv zeta. unfold inference_stats_query.
  cbn [inf_matched inf_unmatched inf_total_records match_rate_pct
       avg_similarity].
  assert (filter (λ r, res_status r = unmatched) res
          = filter (λ r, ¬ res_status r = matched) res) as Hnot.
  { apply list_filter_iff. intros r. destruct (res_status r); split; done. }
  pose proof (length_filter_split (λ r, res_status r = matched) res) as Hsplit.
  pose proof (length_filter (λ r, res_status r = matched) res) as Hle.
  rewrite Hnot. unfold COUNT. split; [lia|]. split.
  - apply py_round_percent; destruct (0 <? Z.of_nat (length res))%Z eqn:E;
      try done.
    + apply Z.ltb_lt in E. apply Qle_shift_div_l.
      * change 0%Q with (inject_Z 0). rewrite <- Zlt_Qlt. lia.
      * rewrite Qmult_0_l. apply Qmult_le_0_compat; [|done].
        change 0%Q with (inject_Z 0). rewrite <- Zle_Qle. lia.
    + apply Z.ltb_lt in E. apply Qle_shift_div_r.
      * change 0%Q with (inject_Z 0). rewrite <- Zlt_Qlt. lia.
      * rewrite (Qmult_comm 100). apply Qmult_le_compat_r; [|done].
        rewrite <- Zle_Qle. lia.
  - intros Hz. destruct res; [|simpl in Hz; lia]. done.
Qed.

(* ================================================================== *)
(** * The tables that steps 1 and 3 write *)
(* ================================================================== *)

Lemma writes_only_create_stop_words names config :
  "stop_words" ∈ names → writes_only names (create_stop_words_table config).
Proof.
  intros Hin db n Hn. unfold create_stop_words_table.
  assert (n ≠ "stop_words") as Hne by (by intros ->).
  destruct (db !! "stop_words") as [[]|]; simpl;
    try (by rewrite lookup_insert_ne);
    destruct (elements (stop_words config)); simpl; by rewrite lookup_insert_ne.
Qed.

Lemma writes_only_run_recursive names name q :
  writes_only names (run_recursive name q).
Proof. destruct q; [apply writes_only_ret|apply writes_only_raise]. Qed.

(** Proves that a command writes only the tables of a list of names. *)
Ltac solve_writes_in :=
  repeat first
    [ apply writes_only_ret
    | apply writes_only_raise
    | apply writes_only_read_as
    | apply writes_only_read_table
    | apply writes_only_run_recursive
    | apply writes_only_create_stop_words; rewrite !elem_of_cons; tauto
    | apply writes_only_create; rewrite !elem_of_cons; tauto
    | apply writes_only_bind; [|intros ?]
    | match goal with |- writes_only _ (if ?b then _ else _) => destruct b end ].

Lemma run_step_1_writes LN config :
  writes_only (step_1_tables config) (run_step_1 LN config).
Proof.
  unfold step_1_tables, run_step_1, create_normalized_text_view,
    create_blocking_keys, calculate_weights, find_candidate_pairs,
    filter_by_threshold, identify_connected_components, create_prime_table,
    get_summary_stats.
  solve_writes_in.
Qed.

Lemma run_step_3_writes LN config :
  writes_only (step_3_tables config) (run_step_3 LN config).
Proof.
  unfold step_3_tables, run_step_3, identify_unassigned,
    create_unassigned_blocking_keys, calculate_unassigned_weights,
    find_unassigned_pairs, filter_unassigned_pairs,
    identify_unassigned_components, generate_new_cluster_ids,
    update_prime_table, get_cleanup_stats.
  solve_writes_in.
Qed.

(** X13: step 1, whether it completes or raises, changes no table other
    than the eight it creates: the stop words, the normalised text, the
    blocking keys, the weights, the candidate pairs, the filtered pairs,
    the clusters and the prime table.  The source table is one of the
    tables it leaves alone. *)
Theorem build_leaves_other_tables LN config db name :
  name ∉ step_1_tables config →
  (run_step_1 LN config db).2 !! name = db !! name.
Proof. intros Hn. by apply run_step_1_writes. Qed.

Lemma build_leaves_other_tables_witness :
  (run_step_1 (λ x, x) graded_config {[ "tx" := RecordsT graded_rows ]}).2
    !! "tx" = Some (RecordsT graded_rows).
Proof.
  rewrite (build_leaves_other_tables (λ x, x) graded_config
             {[ "tx" := RecordsT graded_rows ]} "tx").
  - reflexivity.
  - apply (bool_decide_unpack _). vm_compute. exact I.
Defined.

Lemma string_app_inv_tail p1 p2 s : p1 +:+ s = p2 +:+ s → p1 = p2.
Proof.
  revert p2. induction p1 as [|c p1 IH]; intros [|c' p2] H.
  - done.
  - apply (f_equal String.length) in H.
    rewrite !string_length_app in H. simpl in H. lia.
  - apply (f_equal String.length) in H.
    rewrite !string_length_app in H. simpl in H. lia.
  - simpl in H. injection H as -> H. f_equal. by apply IH.
Qed.

(** X17: step 3 under a configuration made by the engine, whether it
    completes or raises, leaves the results of inference, the stop words
    and the weights, blocking keys and clusters of the build as they were,
    provided the table-name prefix is neither [unassigned] nor [new]
    (with these prefixes a table of the build bears the name of a table
    of step 3); it changes no table other than its seven tables and the
    prime table. *)
Theorem reconcile_leaves_other_tables (LN : Q → Q)
    db_file text id source threshold stop min_len (db : gmap string table) :
  replace_dot source ≠ "unassigned" → replace_dot source ≠ "new" →
  let config :=
    SpecificAffinity_init db_file text id source threshold stop min_len in
  let db' := (run_step_3 LN config db).2 in
  db' !! "inference_results" = db !! "inference_results" ∧
  db' !! "stop_words" = db !! "stop_words" ∧
  db' !! weights_table config = db !! weights_table config ∧
  db' !! blocking_keys_table config = db !! blocking_keys_table config ∧
  db' !! clusters_table config = db !! clusters_table config ∧
  ∀ name, name ∉ step_3_tables config → db' !! name = db !! name.
Proof.
  intros Hun Hnew config db'.
  pose proof (run_step_3_writes LN config db) as Hframe.
  destruct (SpecificAffinity_init_names db_file text id source threshold stop
              min_len) as (_ & Hp & Hb & Hw & Hc & _ & Hu).
  fold config in Hp, Hb, Hw, Hc, Hu.
  repeat split; try exact Hframe; apply Hframe; unfold step_3_tables;
    rewrite ?Hp, ?Hb, ?Hw, ?Hc, ?Hu; rewrite !not_elem_of_cons;
    repeat split;
    first [ apply not_elem_of_nil
          | by apply app_ne_not_suffix
          | by apply not_eq_sym, app_ne_not_suffix
          | by intros ?%string_app_inv_head
          | by intros ?%(string_app_inv_tail _ "unassigned")
          | by intros ?%(string_app_inv_tail _ "new")
          | done ].
Qed.

Lemma reconcile_leaves_other_tables_witness :
  (run_step_3 (λ x, x) infer_config unmatched_db).2 !! "inference_results"
  = Some (ResultsT unmatched_results).
Proof.
  destruct (reconcile_leaves_other_tables (λ x, x) "db" "memo" "id" "tx"
              (1 # 2) None 2 unmatched_db) as (Hres & _); [done..|].
  etrans; [exact Hres|]. reflexivity.
Defined.

(* ================================================================== *)
(** * Running step 1 again, and running a step too early *)
(* ================================================================== *)






(** X14: step 1 on a catalogue without the source table raises a catalog
    error that names the source table.  It is raised by the second
    statement: the table of stop words has been written by then, and no
    other table is created. *)
Theorem build_without_source_raises LN config db :
  stop_words_free db → source_table config ≠ "stop_words" →
  db !! source_table config = None →
  run_step_1 LN config db
  = (Raise (CatalogError (source_table config)),
     <["stop_words" := StopWordsT (elements (stop_words config))]> db).
Proof.
  intros Hfree Hne Hsrc. unfold run_step_1.
  rewrite (bind_run _ _ _ _ _ (create_stop_words_table_run config db Hfree)).
  apply bind_raise. unfold create_normalized_text_view.
  apply bind_raise. unfold read_as. apply bind_raise.
  unfold read_table. by rewrite lookup_insert_ne, Hsrc.
Qed.

Lemma build_without_source_raises_witness :
  run_step_1 (λ x, x) graded_config ∅
  = (Raise (CatalogError "tx"),
     {[ "stop_words" := StopWordsT (elements DEFAULT_STOP_WORDS) ]}).
Proof.
  apply (build_without_source_raises (λ x, x) graded_config ∅); done.
Defined.

(** X15: step 2 before any build: on a catalogue that holds the new
    records but no table of stop words it raises a catalog error and
    leaves the catalogue as it was. *)
Theorem infer_before_build_raises config name db nr :
  db !! name = Some (RecordsT nr) → db !! "stop_words" = None →
  run_step_2 config name db = (Raise (CatalogError "stop_words"), db).
Proof.
  intros Hnr Hstop. unfold run_step_2.
  apply bind_raise. unfold tokenize_new_records.
  rewrite (bind_run _ _ _ _ _ (read_as_run as_records name db _ nr Hnr eq_refl)).
  apply bind_raise. unfold read_as. apply bind_raise.
  unfold read_table. by rewrite Hstop.
Qed.

Lemma infer_before_build_raises_witness :
  run_step_2 infer_config "new_tx" unbuilt_db
  = (Raise (CatalogError "stop_words"), unbuilt_db).
Proof.
  apply (infer_before_build_raises infer_config "new_tx" unbuilt_db
           infer_new_records); reflexivity.
Defined.

(** X16: step 3 before any inference: on a catalogue without the table
    [inference_results] it raises a catalog error and leaves the catalogue
    as it was. *)
Theorem reconcile_before_infer_raises LN config db :
  db !! "inference_results" = None →
  run_step_3 LN config db = (Raise (CatalogError "inference_results"), db).
Proof.
  intros Hres. unfold run_step_3.
  apply bind_raise. unfold identify_unassigned.
  apply bind_raise. unfold read_as. apply bind_raise.
  unfold read_table. by rewrite Hres.
Qed.

Lemma reconcile_before_infer_raises_witness :
  run_step_3 (λ x, x) infer_config infer_db
  = (Raise (CatalogError "inference_results"), infer_db).
Proof.
  apply (reconcile_before_infer_raises (λ x, x) infer_config infer_db).
  reflexivity.
Defined.

(* ================================================================== *)
(** * Relabelling, new cluster ids and stop words *)
(* ================================================================== *)

(** X18: [update_prime_table], when there are new clusters, returns the
    number of rows of [new_clusters] and only relabels: the prime table
    keeps its records, a row whose id is not in [new_clusters] keeps its
    cluster, and a row whose id is there gets a cluster id that
    [new_clusters] gives to that id.  No row is added for an id the prime
    table lacks. *)
Theorem update_prime_table_relabels config db nc prime :
  db !! "new_clusters" = Some (ClustersT nc) → nc ≠ [] →
  db !! prime_table config = Some (PrimeT prime) →
  ∃ prime',
    update_prime_table config db
    = (Return (COUNT nc), <[prime_table config := PrimeT prime']> db) ∧
    prime'.*1 = prime.*1 ∧
    (∀ r c, (r, c) ∈ prime → row_id r ∉ nc.*1 → (r, c) ∈ prime') ∧
    (∀ r oc, (r, oc) ∈ prime' → row_id r ∈ nc.*1 →
       ∃ c, oc = Some c ∧ (row_id r, c) ∈ nc).
Proof.
  intros Hnc Hne Hprime. exists (update_prime_query prime nc).
  split; [by apply update_prime_table_run|].
  split; [apply update_prime_query_records|].
  split; [apply update_prime_query_other|].
  intros r oc Hin Hr. unfold update_prime_query in Hin.
  apply list_elem_of_fmap in Hin as [[r' oc'] [Heq Hin]]. simpl in Heq.
  destruct (filter (λ n : record_id * cluster_id, n.1 = row_id r') nc)
    as [|n l] eqn:E.
  - injection Heq as -> ->. exfalso.
    apply list_elem_of_fmap in Hr as [[k c] [Hk Hkc]]. simpl in Hk. subst k.
    by eapply (filter_nil_not_elem_of _ _ _ E); [|exact Hkc].
  - injection Heq as -> ->. exists n.2. split; [done|].
    assert (n ∈ filter (λ n : record_id * cluster_id, n.1 = row_id r') nc)
      as Hn by (rewrite E; left).
    apply list_elem_of_filter in Hn as [Hk Hn]. destruct n as [k c].
    simpl in *. by subst k.
Qed.

Lemma update_prime_table_relabels_witness :
  ∃ prime',
    update_prime_table infer_config relabel_db
    = (Return 2%Z, <["tx_prime" := PrimeT prime']> relabel_db) ∧
    prime'.*1 = reconcile_prime.*1.
Proof.
  destruct (update_prime_table_relabels infer_config relabel_db
              [("t3", "NEW_1"); ("n1", "NEW_2")] reconcile_prime)
    as (prime' & Hrun & Hrows & _); [done..|].
  exists prime'. split; [exact Hrun|exact Hrows].
Defined.

(** X19: [generate_new_cluster_ids] gives a new cluster id to every
    record of [unassigned_clusters] and to no other record, and every new
    id is [NEW_] followed by a number between 1 and the number of rows of
    [unassigned_clusters]. *)
Theorem new_cluster_ids_cover uc :
  (∀ r old, (r, old) ∈ uc → ∃ c, (r, c) ∈ new_clusters_query uc) ∧
  (∀ r c, (r, c) ∈ new_clusters_query uc →
     (∃ old, (r, old) ∈ uc) ∧
     ∃ n : Z, c = "NEW_" +:+ pretty n ∧ (1 ≤ n ≤ COUNT uc)%Z).
Proof.
  split.
  - intros r old Hin.
    assert ((r, old) ∈ order_by (λ a b : record_id * cluster_id,
                                   String.leb a.2 b.2) uc) as Hin'
      by (by apply elem_of_order_by).
    apply list_elem_of_lookup in Hin' as [i Hi].
    exists ("NEW_" +:+ pretty (Z.of_nat (S i))).
    unfold new_clusters_query. apply list_elem_of_bind.
    exists (r, old). split; [|done]. apply list_elem_of_bind.
    exists (old, "NEW_" +:+ pretty (Z.of_nat (S i))). split.
    + simpl. rewrite bool_decide_eq_true_2 by done. left.
    + unfold cluster_mapping. apply elem_of_remove_dups, list_elem_of_fmap.
      exists ((r, old), Z.of_nat (S i)). split; [done|].
      unfold row_numbers.
      apply (elem_of_lookup_imap_2
               (λ (i : nat) (x : record_id * cluster_id), (x, Z.of_nat (S i)))
               _ (r, old) i). exact Hi.
  - intros r c Hin. split; [|by apply (new_cluster_ids_numbered uc r c)].
    unfold new_clusters_query in Hin.
    apply list_elem_of_bind in Hin as [[r' old] [Hin Hu]].
    apply list_elem_of_bind in Hin as [cm [Hin _]].
    destruct (bool_decide _); [|by apply not_elem_of_nil in Hin].
    apply list_elem_of_singleton in Hin as [= -> _]. by exists old.
Qed.

Lemma new_cluster_ids_cover_witness :
  ∃ c, ("n2", c) ∈ new_clusters_query [("n1", "n1"); ("n2", "n2")].
Proof.
  apply (proj1 (new_cluster_ids_cover [("n1", "n1"); ("n2", "n2")]) "n2" "n2").
  right. left.
Defined.

(** X20: the stop words given to the engine and those added later with
    [add_stop_words] extend the default list, they do not replace it; no
    token of the blocking keys built under the resulting configuration is
    a default stop word or one of the given or added words. *)
Theorem stop_words_never_blocking_keys
    db text id source threshold min_len words more src r t :
  let config :=
    add_stop_words more
      (SpecificAffinity_init db text id source threshold (Some words) min_len) in
  stop_words config = DEFAULT_STOP_WORDS ∪ words ∪ more ∧
  ((r, t) ∈ build_keys config src →
   (t ∉ DEFAULT_STOP_WORDS) ∧ (t ∉ words) ∧ (t ∉ more)).
Proof.
  intros config.
  assert (stop_words config = DEFAULT_STOP_WORDS ∪ words ∪ more) as Hs.
  { unfold config, SpecificAffinity_init. case_bool_decide as Hw; [|done].
    cbn [add_stop_words stop_words new_Config post_init]. rewrite Hw.
    by rewrite (right_id_L ∅ (∪)). }
  split; [done|]. intros Hin.
  apply (proj2 (build_keys_invariant config src)) in Hin as (_ & Hstop & _).
  rewrite Hs, !not_elem_of_union in Hstop. tauto.
Qed.

Lemma stop_words_never_blocking_keys_witness :
  ("hulu" ∉ DEFAULT_STOP_WORDS) ∧
  ("hulu" ∉ ({["netflix"]} : gset string)) ∧
  ("hulu" ∉ ({["spotify"]} : gset string)).
Proof.
  apply (proj2 (stop_words_never_blocking_keys "db" "memo" "id" "tx" (1 # 2) 2
                  {["netflix"]} {["spotify"]}
                  [SourceRow "t1" (Some "Netflix Hulu and Spotify")]
                  "t1" "hulu")).
  vm_compute. left.
Defined.

(** X21: steps 2 and 3 take their stop words from the table that step 1
    stored, not from the configuration: adding or removing stop words in
    the configuration changes neither their result nor the catalogue they
    leave, on any catalogue. *)
Theorem batch_steps_ignore_config_stop_words LN words config name db :
  run_step_2 (add_stop_words words config) name db = run_step_2 config name db ∧
  run_step_2 (remove_stop_words words config) name db
    = run_step_2 config name db ∧
  run_step_3 LN (add_stop_words words config) db = run_step_3 LN config db ∧
  run_step_3 LN (remove_stop_words words config) db = run_step_3 LN config db.
Proof. repeat split; reflexivity. Qed.

(* ================================================================== *)
(** * Inference for one text *)
(* ================================================================== *)

Lemma split_ws_no_space s :
  Forall (λ t, string_forall (λ c, negb (py_is_space c)) t = true) (split_ws s).
Proof.
  induction s as [|c s IH]; simpl.
  - by repeat constructor.
  - destruct (py_is_space c) eqn:E.
    + by constructor.
    + destruct (split_ws s) as [|t ts]; simpl.
      * repeat constructor. simpl. by rewrite E.
      * inversion IH; subst. constructor; [|done]. simpl. by rewrite E.
Qed.

Lemma string_forall_split_ws p s :
  string_forall p s = true →
  Forall (λ t, string_forall p t = true) (split_ws s).
Proof.
  induction s as [|c s IH]; simpl; intros H.
  - by repeat constructor.
  - apply andb_true_iff in H as [Hc Hs]. specialize (IH Hs).
    destruct (py_is_space c).
    + by constructor.
    + destruct (split_ws s) as [|t ts]; simpl.
      * repeat constructor. simpl. by rewrite Hc.
      * inversion IH; subst. constructor; [|done]. simpl. by rewrite Hc.
Qed.

Lemma py_normalized_chars s :
  string_forall (λ c, is_token_char c || py_is_space c)
                (py_sub_non_alnum (LOWER s)) = true.
Proof.
  induction s as [|c s IH]; simpl; [done|].
  rewrite IH, andb_true_r.
  rewrite lower_char_not_upper, orb_false_r.
  unfold is_token_char.
  destruct (is_lower (lower_char c)) eqn:E1, (is_digit (lower_char c)) eqn:E2,
    (py_is_space (lower_char c)) eqn:E3; simpl; rewrite ?E1, ?E2, ?E3;
    reflexivity.
Qed.

(** X22: every token that [infer_single_record] cuts from a text is a
    non-empty string of lower-case letters and digits, has the minimum
    length and is no configured stop word.  In particular no token holds
    white space or a quote character. *)
Theorem single_record_tokens_clean config text_value t :
  t ∈ single_record_tokens config text_value →
  t ≠ EmptyString ∧ string_forall is_token_char t = true ∧
  (min_token_length config ≤ LENGTH t)%Z ∧ (t ∉ stop_words config).
Proof.
  unfold single_record_tokens, py_split.
  rewrite !list_elem_of_filter. intros [[Hlen Hstop] [Hne Hin]].
  split; [done|]. split; [|done].
  pose proof (py_normalized_chars text_value) as Hc.
  apply string_forall_split_ws in Hc.
  pose proof (split_ws_no_space (py_sub_non_alnum (LOWER text_value))) as Hs.
  rewrite Forall_forall in Hc, Hs.
  specialize (Hc _ Hin). specialize (Hs _ Hin).
  eapply string_forall_impl; [|exact (string_forall_and _ _ _ Hc Hs)].
  intros c. simpl. destruct (is_token_char c), (py_is_space c); done.
Qed.

Lemma single_record_tokens_clean_witness :
  "netflix" ≠ EmptyString ∧ string_forall is_token_char "netflix" = true ∧
  (min_token_length infer_config ≤ LENGTH "netflix")%Z ∧
  ("netflix" ∉ stop_words infer_config).
Proof.
  apply (single_record_tokens_clean infer_config
           ("NETFLIX.COM" +:+ String "009"%char "*12345")).
  vm_compute. left.
Defined.

Lemma elem_of_single_matches_join tokens bk tw pt row c s :
  (row, c, s) ∈ single_matches_join tokens bk tw pt ↔
  ∃ t, t ∈ tokens ∧ (row_id row, t) ∈ bk ∧ (t, s) ∈ tw ∧ (row, Some c) ∈ pt.
Proof.
  unfold single_matches_join. rewrite list_elem_of_bind. split.
  - intros [t1 [H1 Hn]].
    apply list_elem_of_bind in H1 as [[r' t2] [H2 Hk]].
    apply list_elem_of_bind in H2 as [[t3 s'] [H3 Hw]].
    apply list_elem_of_bind in H3 as [[row' oc] [H4 Hp]].
    simpl in H4. destruct oc as [c'|]; [|by apply not_elem_of_nil in H4].
    destruct (bool_decide (t1 = t2) && bool_decide (t1 = t3)
              && bool_decide (r' = row_id row')) eqn:E;
      [|by apply not_elem_of_nil in H4].
    apply list_elem_of_singleton in H4 as [= -> -> ->].
    apply andb_true_iff in E as [E E3].
    apply andb_true_iff in E as [E1 E2].
    apply bool_decide_eq_true in E1 as <-, E2 as <-, E3 as ->.
    exists t1. done.
  - intros (t & Hn & Hk & Hw & Hp).
    exists t. split; [|done].
    apply list_elem_of_bind. exists (row_id row, t). split; [|done].
    apply list_elem_of_bind. exists (t, s). split; [|done].
    apply list_elem_of_bind. exists (row, Some c). split; [|done].
    simpl. rewrite !bool_decide_eq_true_2 by done. simpl. left.
Qed.

Lemma match_score_desc_total a b :
  match_score_desc a b = true ∨ match_score_desc b a = true.
Proof.
  unfold match_score_desc. rewrite !Qle_bool_iff.
  destruct (Qlt_le_dec a.2 b.2) as [H|H]; [|auto].
  right. by apply Qlt_le_weak.
Qed.

Lemma match_score_desc_trans a b c :
  match_score_desc a b = true → match_score_desc b c = true →
  match_score_desc a c = true.
Proof.
  unfold match_score_desc. rewrite !Qle_bool_iff. intros H1 H2.
  by apply Qle_trans with b.2.
Qed.

(** X23: on a catalogue that holds the blocking keys, the weights and the
    prime table, [infer_single_record] completes and leaves the catalogue
    as it was.  It reports that there is no valid token exactly when the
    text gives none; when it reports a match, the matched row is a row of
    the prime table with that cluster id, it shares a weighted token with
    the text, its score is at or above the threshold, it is the first of
    at most five candidates, and every candidate is a clustered row of the
    prime table with a score between the threshold and the score of the
    match. *)
Theorem infer_single_record_sound config text_value db bk tw pt :
  db !! blocking_keys_table config = Some (KeysT bk) →
  db !! weights_table config = Some (WeightsT tw) →
  db !! prime_table config = Some (PrimeT pt) →
  ∃ result,
    infer_single_record config text_value db = (Return result, db) ∧
    match result with
    | NoValidTokens => single_record_tokens config text_value = []
    | NoMatchesAboveThreshold => single_record_tokens config text_value ≠ []
    | Matched c r txt s cands =>
        (similarity_threshold config <= s)%Q ∧
        (SourceRow r txt, Some c) ∈ pt ∧
        (∃ t, t ∈ single_record_tokens config text_value ∧
              (r, t) ∈ bk ∧ t ∈ tw.*1) ∧
        head cands = Some (SourceRow r txt, c, s) ∧
        (length cands ≤ 5)%nat ∧
        ∀ m, m ∈ cands →
          (similarity_threshold config <= m.2 <= s)%Q ∧
          (m.1.1, Some m.1.2) ∈ pt
    end.
Proof.
  intros Hbk Htw Hpt. unfold infer_single_record.
  destruct (single_record_tokens config text_value) as [|t0 ts] eqn:Htok.
  { exists NoValidTokens. done. }
  run_with (read_as_run as_keys).
  run_with (read_as_run as_weights).
  run_with (read_as_run as_prime).
  set (tokens := t0 :: ts) in *.
  unfold single_matches_query.
  set (kept := filter (λ m : source_row * cluster_id * Q,
                         Qle_bool (similarity_threshold config) m.2 = true)
                 (group_sum (single_matches_join tokens bk tw pt))).
  assert (∀ m, m ∈ kept →
            (similarity_threshold config <= m.2)%Q ∧
            (m.1.1, Some m.1.2) ∈ pt ∧
            ∃ t, t ∈ tokens ∧ (row_id m.1.1, t) ∈ bk ∧ t ∈ tw.*1) as Hkept.
  { intros [[row c] s] Hm. apply list_elem_of_filter in Hm as [Hs Hm].
    apply Qle_bool_iff in Hs. split; [done|].
    apply elem_of_group_sum in Hm as [Hk _].
    apply list_elem_of_fmap in Hk as [[[row' c'] s'] [[= -> ->] Hj]].
    apply elem_of_single_matches_join in Hj as (t & ? & ? & Hw & ?).
    split; [done|]. exists t. split; [done|]. split; [done|].
    by apply (list_elem_of_fmap_2 fst) in Hw. }
  destruct (order_by match_score_desc kept) as [|top rest] eqn:Hsorted.
  { exists NoMatchesAboveThreshold. done. }
  assert (take 5 (top :: rest) = top :: take 4 rest) as -> by done.
  eexists. split; [reflexivity|].
  assert (top ∈ kept) as Htop.
  { apply (elem_of_order_by match_score_desc). rewrite Hsorted. left. }
  destruct (Hkept top Htop) as (Hs & Hp & Ht).
  destruct top as [[[r txt] c] s]. cbn [fst snd row_id row_text] in *.
  split; [done|]. split; [done|]. split; [done|]. split; [done|]. split.
  { simpl. rewrite length_take. lia. }
  intros m Hm.
  assert (m ∈ kept) as Hm'.
  { apply (elem_of_order_by match_score_desc). rewrite Hsorted.
    apply elem_of_cons in Hm as [->|Hm]; [left|right].
    by apply (subseteq_take 4 rest). }
  destruct (Hkept m Hm') as (Hms & Hmp & _).
  split; [split; [done|]|done].
  apply Qle_bool_iff.
  apply (head_order_by match_score_desc kept (SourceRow r txt, c, s)
           match_score_desc_total match_score_desc_trans);
    [by rewrite Hsorted|done].
Qed.

Lemma infer_single_record_sound_witness :
  infer_single_record infer_config "Alpha & gamma" infer_db
  = (Return (Matched "t1" "t1" (Some "Alpha") 1
               [(SourceRow "t1" (Some "Alpha"), "t1", 1%Q)]), infer_db).
Proof.
  destruct (infer_single_record_sound infer_config "Alpha & gamma" infer_db
              infer_keys infer_weights infer_prime) as (result & Hrun & _);
    [reflexivity..|].
  rewrite Hrun. f_equal.
  assert ((infer_single_record infer_config "Alpha & gamma" infer_db).1
          = Return (Matched "t1" "t1" (Some "Alpha") 1
                      [(SourceRow "t1" (Some "Alpha"), "t1", 1%Q)])) as Hv
    by (by vm_compute).
  rewrite Hrun in Hv. exact Hv.
Defined.

(** X24: [infer_single_record] before any build: when the table of
    blocking keys does not exist, a text with a valid token raises a
    catalog error, while a text without valid token is answered without
    any statement being run; the catalogue is unchanged in both cases. *)
Theorem infer_single_record_before_build config text_value db :
  db !! blocking_keys_table config = None →
  infer_single_record config text_value db
  = (match single_record_tokens config text_value with
     | [] => Return NoValidTokens
     | _ => Raise (CatalogError (blocking_keys_table config))
     end, db).
Proof.
  intros Hbk. unfold infer_single_record.
  destruct (single_record_tokens config text_value); [done|].
  apply bind_raise. unfold read_as. apply bind_raise.
  unfold read_table. by rewrite Hbk.
Qed.

Lemma infer_single_record_before_build_witness :
  infer_single_record infer_config "netflix" unbuilt_db
  = (Raise (CatalogError "tx_blocking_keys"), unbuilt_db) ∧
  infer_single_record infer_config "the & of" unbuilt_db
  = (Return NoValidTokens, unbuilt_db).
Proof.
  split.
  - apply (infer_single_record_before_build infer_config "netflix" unbuilt_db).
    reflexivity.
  - apply (infer_single_record_before_build infer_config "the & of" unbuilt_db).
    reflexivity.
Defined.







(* ================================================================== *)
(** * The weight table of the Snowflake matcher *)
(* ================================================================== *)

Lemma filter_all_fmap {A B} (P : B → Prop) `{∀ x, Decision (P x)}
    (f : A → B) (l : list A) :
  (∀ x, x ∈ l → P (f x)) → filter P (f <$> l) = f <$> l.
Proof.
  intros Hl. apply filter_all. intros y [x [-> Hx]]%list_elem_of_fmap. auto.
Qed.

(** X26: the weight table of the Snowflake matcher has one row for every
    row of [log_weights], whatever the weights.  It agrees with the weight
    table of [calculate_weights] whenever the latter is not empty, and
    where the latter is empty every token gets the weight 0.5. *)
Theorem snowflake_weights_agree LN bk :
  (sf_weights_query LN bk).*1
    = (log_weights LN (weight_calc (token_counts bk))).*1 ∧
  (weights_query LN bk ≠ [] →
   sf_weights_query LN bk
   = (λ tw : token * Q, (tw.1, Some tw.2)) <$> weights_query LN bk) ∧
  (weights_query LN bk = [] →
   ∀ t w, (t, w) ∈ sf_weights_query LN bk → w = Some (5000 # 10000)%Q).
Proof.
  unfold sf_weights_query, weights_query, sf_weights_select, weights_select,
    normalized.
  set (rows := log_weights LN (weight_calc (token_counts bk))).
  split; [by apply fmap_fst_preserved|].
  destruct (MIN_dbl rows.*2) as [lo|] eqn:Hlo.
  2:{ destruct rows; [|done]. split; [done|]. intros _ t w Hin.
      by apply not_elem_of_nil in Hin. }
  destruct (MAX_dbl rows.*2) as [hi|] eqn:Hhi.
  2:{ destruct rows; done. }
  unfold NULLIF0. destruct (Qeq_bool (hi - lo) 0) eqn:Hz.
  - assert (Qeq_bool hi lo = true) as ->.
    { apply Qeq_bool_iff. apply Qeq_bool_iff in Hz.
      rewrite <- (Qplus_0_l lo), <- Hz. ring. }
    split.
    + intros Hne. exfalso. apply Hne. rewrite filter_none; [done|].
      intros x [tw [-> _]]%list_elem_of_fmap. simpl. auto.
    + intros _ t w [tw [[= -> ->] _]]%list_elem_of_fmap. reflexivity.
  - assert (Qeq_bool hi lo = false) as ->.
    { destruct (Qeq_bool hi lo) eqn:E; [|done].
      apply Qeq_bool_iff in E. apply Qeq_bool_neq in Hz. exfalso. apply Hz.
      rewrite E. ring. }
    split.
    + intros _. rewrite filter_all_fmap by done.
      rewrite <- !list_fmap_compose. done.
    + intros Hnil t w Hin. exfalso.
      rewrite filter_all_fmap in Hnil by done.
      apply fmap_nil_inv, fmap_nil_inv in Hnil. rewrite Hnil in Hin.
      by apply not_elem_of_nil in Hin.
Qed.

Lemma snowflake_weights_agree_witness :
  (sf_weights_query (λ x, x) same_token_keys).*1 = ["netflix"].
Proof.
  rewrite (proj1 (snowflake_weights_agree (λ x, x) same_token_keys)).
  reflexivity.
Defined.

(* ================================================================== *)
(** * The score of a candidate *)
(* ================================================================== *)

Lemma NoDup_fmap_inj_on {A B} (f : A → B) (l : list A) x y :
  NoDup (f <$> l) → x ∈ l → y ∈ l → f x = f y → x = y.
Proof.
  induction l as [|a l IH]; intros Hnd Hx Hy Heq.
  - by apply not_elem_of_nil in Hx.
  - rewrite fmap_cons in Hnd. apply NoDup_cons in Hnd as [Hnin Hnd].
    apply elem_of_cons in Hx as [->|Hx]; apply elem_of_cons in Hy as [->|Hy].
    + done.
    + exfalso. apply Hnin. rewrite Heq. by apply list_elem_of_fmap_2.
    + exfalso. apply Hnin. rewrite <- Heq. by apply list_elem_of_fmap_2.
    + by apply IH.
Qed.

(** The sum of one group of the join of [find_candidates], for one new
    token, one blocking key and one weight: the prime table has one row
    for the reference record. *)
Lemma candidates_join_inner q r c (n k : record_id * token) (w : token * Q)
    (pt : list (source_row * option cluster_id)) row :
  NoDup (row_id <$> pt.*1) → (row, Some c) ∈ pt → row_id row = r →
  (SUM (filter (λ kv, kv.1 = (q, r, c))
          (pt ≫= (λ p,
             match p.2 with
             | Some c' =>
                 if bool_decide (n.2 = k.2) && bool_decide (n.2 = w.1)
                    && bool_decide (k.1 = row_id p.1)
                 then [(n.1, k.1, c', w.2)] else []
             | None => []
             end))).*2
   == if bool_decide (n.2 = k.2) && bool_decide (n.2 = w.1)
         && bool_decide (n.1 = q) && bool_decide (k.1 = r)
      then w.2 else 0)%Q.
Proof.
  intros Hnd Hrow Hr. rewrite SUM_filter_bind.
  assert (NoDup pt) as Hpt.
  { apply (NoDup_fmap_1 fst). by apply (NoDup_fmap_1 row_id). }
  rewrite (SUM_fmap_ext _
     (λ p, if decide (p = (row, Some c))
           then (if bool_decide (n.2 = k.2) && bool_decide (n.2 = w.1)
                    && bool_decide (n.1 = q) && bool_decide (k.1 = r)
                 then w.2 else 0)
           else 0)%Q).
  - rewrite (SUM_single pt (row, Some c) _ Hpt).
    by rewrite decide_True by done.
  - intros [row' oc] Hp. cbn [fst snd].
    destruct (decide ((row', oc) = (row, Some c))) as [[= -> ->]|Hne].
    + rewrite SUM_filter_if. cbn [fst snd]. rewrite Hr.
      destruct (bool_decide (n.2 = k.2)), (bool_decide (n.2 = w.1)),
        (bool_decide (k.1 = r)) eqn:Ek; cbn [andb]; try reflexivity;
        try (rewrite andb_false_r; reflexivity).
      apply bool_decide_eq_true in Ek.
      destruct (decide (n.1 = q)) as [Hq|Hq].
      * rewrite !bool_decide_eq_true_2; [reflexivity|done|by rewrite Hq, Ek].
      * rewrite (bool_decide_eq_false_2 (n.1 = q)) by done.
        rewrite bool_decide_eq_false_2; [reflexivity|].
        intros [= ? ?]. done.
    + destruct oc as [c'|]; [|reflexivity].
      rewrite SUM_filter_if. cbn [fst snd].
      destruct (bool_decide (n.2 = k.2) && bool_decide (n.2 = w.1)
                && bool_decide (k.1 = row_id row')) eqn:E; [|reflexivity].
      apply andb_true_iff in E as [_ E]. apply bool_decide_eq_true in E.
      rewrite bool_decide_eq_false_2; [reflexivity|].
      intros [= Hq Hk Hc]. apply Hne. subst c'. f_equal.
      assert ((row', Some c) = (row, Some c)) as [= ->]; [|done].
      apply (NoDup_fmap_inj_on (λ p : source_row * option cluster_id,
                                  row_id p.1) pt); try done.
      * rewrite <- list_fmap_compose in Hnd. exact Hnd.
      * simpl. congruence.
Qed.

(** X27: the similarity score of a candidate of inference is the sum of
    the weights of the tokens that the new record shares with the
    reference record, when the blocking keys have no duplicate row and no
    two rows of the prime table have the same id. *)
Theorem candidate_score_is_shared_weight nrt bk tw pt c :
  NoDup bk → NoDup (row_id <$> pt.*1) →
  c ∈ candidates_query nrt bk tw pt →
  (cand_score c
   == SUM (weight_of tw <$>
           query_shared_tokens nrt bk (query_id c) (prime_record_id c)))%Q.
Proof.
  intros Hbk Hpt. unfold candidates_query.
  intros [[[[q r] cl] s] [-> Hg]]%list_elem_of_fmap.
  cbn [cand_score query_id prime_record_id fst snd].
  apply elem_of_group_sum in Hg as [Hk ->].
  apply list_elem_of_fmap in Hk as [[[[q' r'] cl'] s'] [[= -> -> ->] Hj]].
  apply elem_of_candidates_join in Hj as (_ & row & _ & _ & _ & Hrow & Hr).
  unfold candidates_join, query_shared_tokens.
  rewrite SUM_filter_bind, shared_tokens_sum.
  apply SUM_fmap_ext. intros n _.
  rewrite SUM_filter_bind.
  rewrite (SUM_fmap_ext _
     (λ k, if decide (k = (r', n.2))
           then (if decide (n.1 = q') then weight_of tw n.2 else 0)
           else 0)%Q).
  { apply SUM_single, Hbk. }
  intros k _. rewrite SUM_filter_bind.
  rewrite (SUM_fmap_ext _ _ tw
             (λ w _, candidates_join_inner q' r' cl' n k w pt row Hpt Hrow Hr)).
  destruct n as [qn tn], k as [rk tk]. cbn [fst snd].
  destruct (decide ((rk, tk) = (r', tn))) as [[= -> ->]|Hne];
    [destruct (decide (qn = q')) as [->|Hq]|].
  - unfold weight_of. rewrite <- SUM_fmap_filter.
    apply SUM_fmap_ext. intros [t x] _. cbn [fst snd].
    rewrite (bool_decide_eq_true_2 (tn = tn)), (bool_decide_eq_true_2 (q' = q')),
      (bool_decide_eq_true_2 (r' = r')) by done.
    rewrite !andb_true_r. cbn [andb].
    destruct (decide (t = tn)) as [->|Ht].
    + rewrite bool_decide_eq_true_2 by done. reflexivity.
    + rewrite bool_decide_eq_false_2 by congruence. reflexivity.
  - rewrite <- (SUM_zeros tw). apply SUM_fmap_ext. intros [t x] _.
    rewrite (bool_decide_eq_false_2 (qn = q')) by done.
    by rewrite andb_false_r.
  - rewrite <- (SUM_zeros tw). apply SUM_fmap_ext. intros [t x] _.
    cbn [fst snd].
    destruct (bool_decide (tn = tk)) eqn:E1; [|done].
    apply bool_decide_eq_true in E1 as <-.
    rewrite (bool_decide_eq_false_2 (rk = r')) by congruence.
    by rewrite !andb_false_r.
Qed.

Lemma candidate_score_is_shared_weight_witness :
  (cand_score (Candidate "n1" "t1" "t1" (5 # 4))
   == SUM (weight_of score_weights <$>
           query_shared_tokens score_tokens score_keys "n1" "t1"))%Q.
Proof.
  apply (candidate_score_is_shared_weight score_tokens score_keys score_weights
           tied_prime (Candidate "n1" "t1" "t1" (5 # 4))).
  - apply (bool_decide_unpack _). by vm_compute.
  - apply (bool_decide_unpack _). by vm_compute.
  - vm_compute. left.
Defined.

(* ================================================================== *)
(** * The pipeline as a whole *)
(* ================================================================== *)




(* ================================================================== *)
(** * Near-threshold pairs *)
(* ================================================================== *)

(** X29: [find_near_threshold_pairs] returns at most 15 rows; each is a
    candidate pair that the threshold filter of step 1 did not keep, with
    a score below the threshold and at least 0.8 times the threshold,
    joined with the texts of two rows of the prime table. *)
Theorem near_threshold_pairs_not_kept config db cp pt :
  db !! "candidate_pairs" = Some (PairsT cp) →
  db !! prime_table config = Some (PrimeT pt) →
  ∃ rows,
    find_near_threshold_pairs config db = (Return rows, db) ∧
    (length rows ≤ 15)%nat ∧
    ∀ n, n ∈ rows →
      (near_id_1 n, near_id_2 n, near_score n) ∈ cp ∧
      ((near_id_1 n, near_id_2 n, near_score n)
         ∉ filter_pairs_query (similarity_threshold config) cp) ∧
      (similarity_threshold config * (8 # 10) <= near_score n)%Q ∧
      (near_score n < similarity_threshold config)%Q ∧
      (∃ c, (SourceRow (near_id_1 n) (near_text_1 n), c) ∈ pt) ∧
      (∃ c, (SourceRow (near_id_2 n) (near_text_2 n), c) ∈ pt).
Proof.
  intros Hcp Hpt. unfold find_near_threshold_pairs.
  run_with (read_as_run as_pairs).
  run_with (read_as_run as_prime).
  eexists. split; [reflexivity|]. unfold near_threshold_query. split.
  { rewrite length_take. lia. }
  intros n Hn. apply (subseteq_take 15) in Hn.
  apply elem_of_order_by, list_elem_of_filter in Hn as [[Hlt Hge] Hn].
  apply Qle_bool_iff in Hge.
  assert (near_score n < similarity_threshold config)%Q as Hlt'.
  { apply Qnot_le_lt. intros Hle. apply Qle_bool_iff in Hle. congruence. }
  unfold near_threshold_join in Hn.
  apply list_elem_of_bind in Hn as [[[a b] s] [Hn Hp]].
  apply list_elem_of_bind in Hn as [[[r1 t1] c1] [Hn H1]].
  apply list_elem_of_bind in Hn as [[[r2 t2] c2] [Hn H2]].
  cbn [fst snd row_id row_text] in Hn.
  destruct (bool_decide (a = r1) && bool_decide (b = r2)) eqn:E;
    [|by apply not_elem_of_nil in Hn].
  apply andb_true_iff in E as [E1 E2].
  apply bool_decide_eq_true in E1 as ->, E2 as ->.
  apply list_elem_of_singleton in Hn as ->. cbn [near_id_1 near_id_2
    near_score near_text_1 near_text_2] in *.
  split; [done|]. split.
  { intros Hk. apply list_elem_of_filter in Hk as [Hk _]. simpl in Hk.
    congruence. }
  split; [done|]. split; [done|]. split; eauto.
Qed.

Lemma near_threshold_pairs_not_kept_witness :
  find_near_threshold_pairs infer_config near_db
  = (Return [NearPair "t1" "t2" (9 # 20) (Some "alpha beta") (Some "alpha")],
     near_db).
Proof.
  destruct (near_threshold_pairs_not_kept infer_config near_db
              [("t1", "t2", (9 # 20)%Q); ("t1", "t3", (6 # 10)%Q)]
              [(SourceRow "t1" (Some "alpha beta"), None);
               (SourceRow "t2" (Some "alpha"), None);
               (SourceRow "t3" (Some "alpha beta"), None)])
    as (rows & Hrun & _); [reflexivity..|].
  rewrite Hrun. f_equal.
  assert ((find_near_threshold_pairs infer_config near_db).1
          = Return [NearPair "t1" "t2" (9 # 20) (Some "alpha beta")
                      (Some "alpha")]) as Hv by (by vm_compute).
  rewrite Hrun in Hv. exact Hv.
Defined.

(* ================================================================== *)
(** * The ranking of the candidates *)
(* ================================================================== *)

Lemma insert_by_sorted {A} (le : A → A → bool) x l :
  (∀ a b, le a b = true ∨ le b a = true) →
  (∀ a b c, le a b = true → le b c = true → le a c = true) →
  sorted_by le l → sorted_by le (insert_by le x l).
Proof.
  intros Htotal Htrans. induction l as [|y l IH]; simpl.
  - intros _. split; [constructor|done].
  - intros [Hy Hl]. destruct (le x y) eqn:E; simpl.
    + split; [|done]. constructor; [done|].
      apply Forall_forall. intros z Hz. rewrite Forall_forall in Hy.
      apply (Htrans x y z); auto.
    + split; [|by apply IH]. apply Forall_forall. intros z Hz.
      rewrite insert_by_Permutation in Hz.
      apply elem_of_cons in Hz as [->|Hz].
      * destruct (Htotal x y); congruence.
      * rewrite Forall_forall in Hy. auto.
Qed.

Lemma order_by_sorted {A} (le : A → A → bool) l :
  (∀ a b, le a b = true ∨ le b a = true) →
  (∀ a b c, le a b = true → le b c = true → le a c = true) →
  sorted_by le (order_by le l).
Proof.
  intros Htotal Htrans. induction l as [|x l IH]; simpl; [done|].
  by apply insert_by_sorted.
Qed.

Lemma sorted_lookup_le {A} (le : A → A → bool) l i j a b :
  sorted_by le l → l !! i = Some a → l !! j = Some b → (i < j)%nat →
  le a b = true.
Proof.
  revert i j. induction l as [|x l IH]; intros i j Hs Hi Hj Hij; [done|].
  destruct Hs as [Hx Hl].
  destruct i as [|i], j as [|j]; try lia; simpl in *.
  - injection Hi as <-. rewrite Forall_forall in Hx. apply Hx.
    by apply list_elem_of_lookup_2 in Hj.
  - apply (IH i j); [done..|lia].
Qed.

(** The rows of [ranked_matches]: the candidates of a query record at
    their positions in the sorted partition, numbered from 1. *)
Lemma elem_of_ranked_query cands c n :
  (c, n) ∈ ranked_query cands ↔
  ∃ i, order_by score_desc (filter (λ c', query_id c' = query_id c) cands) !! i
       = Some c ∧ n = Z.of_nat (S i).
Proof.
  unfold ranked_query. rewrite list_elem_of_bind. split.
  - intros [q [Hin Hq]]. unfold row_numbers in Hin.
    apply elem_of_lookup_imap_1 in Hin as (i & x & [= <- ->] & Hi).
    assert (query_id c = q) as <-.
    { apply list_elem_of_lookup_2 in Hi.
      by apply partition_query_id in Hi as [_ ?]. }
    by exists i.
  - intros [i [Hi ->]]. exists (query_id c). split.
    + unfold row_numbers.
      apply (elem_of_lookup_imap_2 (λ (i : nat) (x : candidate),
                                      (x, Z.of_nat (S i))) _ c i Hi).
    + apply elem_of_remove_dups, list_elem_of_fmap. exists c. split; [done|].
      apply list_elem_of_lookup_2 in Hi.
      by apply partition_query_id in Hi as [? _].
Qed.

(** X30: [rank_matches] ranks every candidate and nothing else; the ranks
    of the candidates of a query record lie between 1 and their number,
    no two of them have the same rank, and a candidate never has a
    greater score than a candidate of the same query record with a smaller
    rank. *)
Theorem ranked_matches_ordered cands :
  (∀ c, c ∈ cands ↔ ∃ n, (c, n) ∈ ranked_query cands) ∧
  (∀ c n, (c, n) ∈ ranked_query cands →
     (1 ≤ n ≤ COUNT (filter (λ c', query_id c' = query_id c) cands))%Z) ∧
  (∀ c1 c2 n, (c1, n) ∈ ranked_query cands → (c2, n) ∈ ranked_query cands →
     query_id c1 = query_id c2 → c1 = c2) ∧
  (∀ c1 n1 c2 n2,
     (c1, n1) ∈ ranked_query cands → (c2, n2) ∈ ranked_query cands →
     query_id c1 = query_id c2 → (n1 ≤ n2)%Z →
     (cand_score c2 <= cand_score c1)%Q).
Proof.
  split; [|split; [|split]].
  - intros c. split.
    + intros Hc.
      assert (c ∈ order_by score_desc
                    (filter (λ c', query_id c' = query_id c) cands)) as Hin.
      { apply elem_of_order_by, list_elem_of_filter. done. }
      apply list_elem_of_lookup in Hin as [i Hi].
      exists (Z.of_nat (S i)). apply elem_of_ranked_query. by exists i.
    + intros [n [i [Hi _]]%elem_of_ranked_query].
      apply list_elem_of_lookup_2 in Hi.
      by apply partition_query_id in Hi as [? _].
  - intros c n [i [Hi ->]]%elem_of_ranked_query.
    apply lookup_lt_Some in Hi.
    rewrite (Permutation_length (order_by_Permutation _ _)) in Hi.
    unfold COUNT. lia.
  - intros c1 c2 n [i [Hi ->]]%elem_of_ranked_query
      [j [Hj Hn]]%elem_of_ranked_query Hq.
    rewrite Hq in Hi. assert (i = j) as -> by lia. congruence.
  - intros c1 n1 c2 n2 [i [Hi ->]]%elem_of_ranked_query
      [j [Hj ->]]%elem_of_ranked_query Hq Hle.
    rewrite Hq in Hi. apply Qle_bool_iff.
    destruct (decide (i = j)) as [->|Hne].
    + assert (c1 = c2) as -> by congruence.
      by destruct (score_desc_total c2 c2).
    + apply (sorted_lookup_le score_desc _ i j c1 c2
               (order_by_sorted score_desc _ score_desc_total
                  score_desc_trans) Hi Hj). lia.
Qed.
